(** * horizon pr-review: the review queries and the recording canvas

    A shallow embedding of [src/pr-review/pr-review.cpp] (the SQL views that
    [main] creates over the pool database and the queries it runs on them)
    and of [src/pr-review/canvas_cairo2.cpp] (the recording canvas).

    Tables are lists of records, one field per column the queries read.
    A query is the list comprehension it denotes: a join is a nested
    [flat_map], [WHERE] a [filter], [UNION] a concatenation that keeps the
    first copy of every row, and [WITH RECURSIVE] the queue algorithm of
    SQLite, run on fuel because it need not terminate. *)

From Stdlib Require Import List String Ascii ZArith Lia Bool Arith PeanoNat.
From Stdlib Require Import Sorted Permutation QArith OrderedTypeEx.
From Stdlib Require Decimal DecimalString DecimalZ DecimalPos.
Import ListNotations.

Local Close Scope Q_scope.
Local Open Scope string_scope.
Local Open Scope list_scope.

(** ** SQL building blocks *)

Module Sql.

(** Three-valued logic: [None] is SQL's NULL. *)
Definition sql_eq (a b : option string) : option bool :=
  match a, b with
  | Some x, Some y => Some (String.eqb x y)
  | _, _ => None
  end.

Definition sql_or (a b : option bool) : option bool :=
  match a, b with
  | Some true, _ | _, Some true => Some true
  | Some false, Some false => Some false
  | _, _ => None
  end.

Definition sql_and (a b : option bool) : option bool :=
  match a, b with
  | Some false, _ | _, Some false => Some false
  | Some true, Some true => Some true
  | _, _ => None
  end.

Definition is_null {A} (a : option A) : option bool :=
  match a with None => Some true | Some _ => Some false end.

(** A row passes [WHERE] or [ON] when the condition is true (not NULL). *)
Definition holds (c : option bool) : bool :=
  match c with Some true => true | _ => false end.

(** [a LEFT JOIN bs ON on]: the matching rows of [bs], or one NULL row. *)
Definition left_join {A B} (on : A -> B -> option bool) (a : A) (bs : list B)
  : list (option B) :=
  match filter (fun b => holds (on a b)) bs with
  | [] => [None]
  | ms => map Some ms
  end.

(** [a INNER JOIN bs ON on]. *)
Definition inner_join {A B} (on : A -> B -> option bool) (a : A) (bs : list B)
  : list B :=
  filter (fun b => holds (on a b)) bs.

(** *** [UNION] and [WITH RECURSIVE]

    [enqueue seen new] adds to the queue the rows of [new] that were never
    added before ([UNION], not [UNION ALL]) and returns the rows seen so far
    with the rows added. *)
Section RecursiveCte.
Context {row : Type}.
Variable row_eq_dec : forall x y : row, {x = y} + {x <> y}.

Fixpoint enqueue (seen new : list row) : list row * list row :=
  match new with
  | [] => (seen, [])
  | r :: rest =>
      if in_dec row_eq_dec r seen then enqueue seen rest
      else let (seen', fresh) := enqueue (r :: seen) rest in
           (seen', r :: fresh)
  end.

(** The rows of a select under [UNION]: each row once. *)
Definition distinct (l : list row) : list row := snd (enqueue [] l).

Definition union (l1 l2 : list row) : list row := distinct (l1 ++ l2).

(** [recursive_select r]: the recursive select with the recursive table
    holding the single row [r]. *)
Variable recursive_select : row -> list row.

(** SQLite's evaluation of a recursive table: take a row from the queue,
    emit it, run the recursive select on it and queue the rows it yields
    that were not queued before; stop when the queue is empty.  [None]:
    the fuel ran out before the queue did. *)
Fixpoint cte_loop (fuel : nat) (queue seen : list row) : option (list row) :=
  match fuel with
  | O => None
  | S fuel' =>
      match queue with
      | [] => Some []
      | r :: q =>
          let (seen', fresh) := enqueue seen (recursive_select r) in
          option_map (cons r) (cte_loop fuel' (q ++ fresh) seen')
      end
  end.

Definition cte_union (initial_select : list row) (fuel : nat)
  : option (list row) :=
  let (seen, fresh) := enqueue [] initial_select in
  cte_loop fuel fresh seen.

(** The rows a recursive table holds: those of the initial select and
    those the recursive select yields from a row of the table. *)
Inductive cte_row (initial_select : list row) : row -> Prop :=
| cte_initial r : In r initial_select -> cte_row initial_select r
| cte_recursive r r' :
    cte_row initial_select r -> In r' (recursive_select r) ->
    cte_row initial_select r'.
End RecursiveCte.

End Sql.

(** ** The pool database and the change set *)

Module PrReview.
Import Sql.

Definition nil_uuid : string := "00000000-0000-0000-0000-000000000000".

(** [git_files]: one row per delta of the diff, written by [diff_file_cb_c]. *)
Record git_file := mk_git_file { git_filename : string; status : Z }.

(** [all_items_view]: the pool's items with the file each is stored in. *)
Record item := mk_item
  { item_type : string; item_uuid : string; item_name : string;
    item_filename : string }.

(** [models]: the 3D models of packages. *)
Record model := mk_model { package_uuid : string; model_filename : string }.

(** [parts]. *)
Record part := mk_part { part_uuid : string; base : string; MPN : string }.

(** [dependencies]: item ([dep_of_type], [dep_of_uuid]) uses
    ([dep_type], [dep_uuid]). *)
Record dependency := mk_dependency
  { dep_of_type : string; dep_of_uuid : string;
    dep_type : string; dep_uuid : string }.

(** [symbols]. *)
Record symbol := mk_symbol
  { symbol_uuid : string; symbol_unit : string; symbol_name : string }.

Record database := mk_database
  { git_files : list git_file;
    all_items_view : list item;
    models : list model;
    parts : list part;
    dependencies : list dependency;
    symbols : list symbol }.

(** *** [git_files_view] *)

Record gfv_row := mk_gfv
  { gfv_type : string; gfv_uuid : string; gfv_name : string;
    gfv_filename : string; gfv_status : Z }.

(** [SELECT DISTINCT 'model_3d', nil, '', model_filename FROM models]. *)
Definition model_items (db : database) : list item :=
  map (fun f => mk_item "model_3d" nil_uuid "" f)
      (nodup string_dec (map model_filename (models db))).

(** The right-hand side of the join: [all_items_view UNION ALL] the models. *)
Definition lookup_table (db : database) : list item :=
  all_items_view db ++ model_items db.

Definition git_files_view (db : database) : list gfv_row :=
  flat_map (fun g =>
    map (fun it => mk_gfv (item_type it) (item_uuid it) (item_name it)
                          (item_filename it) (status g))
        (inner_join (fun g it => sql_eq (Some (item_filename it))
                                        (Some (git_filename g)))
                    g (lookup_table db)))
    (git_files db).

(** The "Non-items" query: [git_files LEFT JOIN all_items_view ON
    filename = git_filename WHERE filename IS NULL]. *)
Definition non_items (db : database) : list string :=
  flat_map (fun g =>
    flat_map (fun o : option item =>
      if holds (is_null (option_map item_filename o))
      then [git_filename g] else [])
      (left_join (fun g it => sql_eq (Some (item_filename it))
                                     (Some (git_filename g)))
                 g (all_items_view db)))
    (git_files db).

(** *** [top_parts] *)

Definition top_parts (db : database) : list string :=
  flat_map (fun g =>
    flat_map (fun p : option part =>
      flat_map (fun gfv : option gfv_row =>
        if holds (sql_and
                    (sql_or (is_null (option_map gfv_uuid gfv))
                            (sql_eq (option_map base p) (Some nil_uuid)))
                    (sql_eq (Some (gfv_type g)) (Some "part")))
        then [gfv_uuid g] else [])
        (left_join (fun (p : option part) gfv =>
                      sql_eq (Some (gfv_uuid gfv)) (option_map base p))
                   p (git_files_view db)))
      (left_join (fun g p => sql_eq (Some (gfv_uuid g)) (Some (part_uuid p)))
                 g (parts db)))
    (git_files_view db).

(** The refs of the change set: the (type, uuid) pairs of [git_files_view]. *)
Definition in_change (db : database) (type uuid : string) : Prop :=
  exists g, In g (git_files_view db) /\ gfv_type g = type /\ gfv_uuid g = uuid.

(** *** [parts_tree]

    The recursive table [where_used(typex, uuidx, level, root)].  SQL
    integers are unbounded naturals here: a level counts edges and never
    nears 64 bits. *)
Record wu_row := mk_wu
  { typex : string; uuidx : string; levelx : nat; rootx : string }.

Definition wu_row_eq_dec (a b : wu_row) : {a = b} + {a <> b}.
Proof. decide equality; auto using string_dec, Nat.eq_dec. Defined.

(** [SELECT 'part', part_uuid, 0, part_uuid FROM top_parts]. *)
Definition where_used_initial (db : database) : list wu_row :=
  map (fun u => mk_wu "part" u 0 u) (top_parts db).

(** [SELECT dep_type, dep_uuid, level+1, root FROM dependencies, where_used
    WHERE dependencies.type = typex AND dependencies.uuid = uuidx]. *)
Definition where_used_recursive (db : database) (w : wu_row) : list wu_row :=
  map (fun d => mk_wu (dep_type d) (dep_uuid d) (levelx w + 1) (rootx w))
      (filter (fun d => holds (sql_and
                                 (sql_eq (Some (dep_of_type d)) (Some (typex w)))
                                 (sql_eq (Some (dep_of_uuid d)) (Some (uuidx w)))))
              (dependencies db)).

Definition where_used (db : database) (fuel : nat) : option (list wu_row) :=
  cte_union wu_row_eq_dec (where_used_recursive db) (where_used_initial db) fuel.

(** A row of [parts_tree] and of [all_parts_tree]; [name] is NULL when the
    left join on [all_items_view] finds no item. *)
Record tree_row := mk_tree
  { type : string; name : option string; level : nat; type_order : Z;
    in_pr : nat; uuid : string; root : string }.

Definition tree_row_eq_dec (a b : tree_row) : {a = b} + {a <> b}.
Proof.
  decide equality;
    auto using string_dec, Nat.eq_dec, Z.eq_dec.
  decide equality; apply string_dec.
Defined.

(** The [CASE where_used.typex ... END] of [parts_tree]. *)
Definition type_order_of (t : string) : Z :=
  if t =? "part" then 0
  else if t =? "entity" then 1
  else if t =? "unit" then 2
  else if t =? "package" then 4
  else if t =? "padstack" then 6
  else (-1).

(** [(SELECT COUNT( * ) FROM git_files_view WHERE uuid = u AND type = t)]. *)
Definition in_pr_count (db : database) (t u : string) : nat :=
  List.length
    (filter (fun g => holds (sql_and
                               (sql_eq (Some (gfv_uuid g)) (Some u))
                               (sql_eq (Some (gfv_type g)) (Some t))))
            (git_files_view db)).

Definition parts_tree_select (db : database) (wu : list wu_row)
  : list tree_row :=
  flat_map (fun w =>
    map (fun it : option item =>
           mk_tree (typex w) (option_map item_name it) (levelx w)
                   (type_order_of (typex w))
                   (in_pr_count db (typex w) (uuidx w))
                   (uuidx w) (rootx w))
        (left_join (fun w it => sql_and
                                  (sql_eq (Some (typex w)) (Some (item_type it)))
                                  (sql_eq (Some (uuidx w)) (Some (item_uuid it))))
                   w (all_items_view db)))
    wu.

Definition parts_tree (db : database) (fuel : nat) : option (list tree_row) :=
  option_map (parts_tree_select db) (where_used db fuel).

(** *** [all_parts_tree] *)

(** [SELECT 'model_3d', model_filename, level+1, 5, in_pr, '', root FROM
    parts_tree INNER JOIN models ON (models.package_uuid = uuid AND
    type = 'package')]. *)
Definition model_rows (db : database) (pt : list tree_row) : list tree_row :=
  flat_map (fun r =>
    map (fun m => mk_tree "model_3d" (Some (model_filename m)) (level r + 1) 5
                          (in_pr r) "" (root r))
        (inner_join (fun r m => sql_and
                                  (sql_eq (Some (package_uuid m)) (Some (uuid r)))
                                  (sql_eq (Some (type r)) (Some "package")))
                    r (models db)))
    pt.

(** [SELECT 'symbol', symbols.name, level+1, 3, in_pr, symbols.uuid, root
    FROM parts_tree INNER JOIN symbols ON (symbols.unit = parts_tree.uuid
    AND type = 'unit')]. *)
Definition symbol_rows (db : database) (pt : list tree_row) : list tree_row :=
  flat_map (fun r =>
    map (fun s => mk_tree "symbol" (Some (symbol_name s)) (level r + 1) 3
                          (in_pr r) (symbol_uuid s) (root r))
        (inner_join (fun r s => sql_and
                                  (sql_eq (Some (symbol_unit s)) (Some (uuid r)))
                                  (sql_eq (Some (type r)) (Some "unit")))
                    r (symbols db)))
    pt.

(** [ORDER BY root, type_order, level]: text compares byte by byte, the two
    integers numerically. *)
Definition key_compare (a b : tree_row) : comparison :=
  match String.compare (root a) (root b) with
  | Eq => match Z.compare (type_order a) (type_order b) with
          | Eq => Nat.compare (level a) (level b)
          | c => c
          end
  | c => c
  end.

Definition key_leb (a b : tree_row) : bool :=
  match key_compare a b with Gt => false | _ => true end.

(** The sort keeps rows with equal keys in the order the compound select
    yields them. *)
Fixpoint insert_row (r : tree_row) (l : list tree_row) : list tree_row :=
  match l with
  | [] => [r]
  | x :: xs => if key_leb r x then r :: l else x :: insert_row r xs
  end.

Fixpoint order_by (l : list tree_row) : list tree_row :=
  match l with
  | [] => []
  | r :: rest => insert_row r (order_by rest)
  end.

(** The compound select hands its rows to [ORDER BY] in the order of the
    index SQLite builds to make them distinct: by whole rows, column after
    column (type, name, level, type_order, in_pr, uuid, root), text byte by
    byte and NULL before any text. *)
Definition lex (c d : comparison) : comparison :=
  match c with Eq => d | _ => c end.

Definition null_first_compare (a b : option string) : comparison :=
  match a, b with
  | None, None => Eq
  | None, Some _ => Lt
  | Some _, None => Gt
  | Some x, Some y => String.compare x y
  end.

Definition row_compare (a b : tree_row) : comparison :=
  lex (String.compare (type a) (type b))
  (lex (null_first_compare (name a) (name b))
  (lex (Nat.compare (level a) (level b))
  (lex (Z.compare (type_order a) (type_order b))
  (lex (Nat.compare (in_pr a) (in_pr b))
  (lex (String.compare (uuid a) (uuid b))
       (String.compare (root a) (root b))))))).

Definition row_leb (a b : tree_row) : bool :=
  match row_compare a b with Gt => false | _ => true end.

Fixpoint insert_distinct (r : tree_row) (l : list tree_row) : list tree_row :=
  match l with
  | [] => [r]
  | x :: xs => if row_leb r x then r :: l else x :: insert_distinct r xs
  end.

Fixpoint in_row_order (l : list tree_row) : list tree_row :=
  match l with
  | [] => []
  | r :: rest => insert_distinct r (in_row_order rest)
  end.

Definition all_parts_tree_select (db : database) (pt : list tree_row)
  : list tree_row :=
  order_by (in_row_order
              (union tree_row_eq_dec
                 (union tree_row_eq_dec pt (model_rows db pt))
                 (symbol_rows db pt))).

Definition all_parts_tree (db : database) (fuel : nat)
  : option (list tree_row) :=
  option_map (all_parts_tree_select db) (parts_tree db fuel).

(** [const auto from_pr = q.get<int>(4)] used as the [bool cond] of
    [surround_if]: the row is set in bold when the count is not zero. *)
Definition from_pr (r : tree_row) : bool := negb (Nat.eqb (in_pr r) 0).

(** *** [derived_parts_tree] *)

Record du_row := mk_du { d_uuidx : string; d_level : nat }.

Definition du_row_eq_dec (a b : du_row) : {a = b} + {a <> b}.
Proof. decide equality; auto using string_dec, Nat.eq_dec. Defined.

(** [SELECT part_uuid, 0 FROM top_parts]. *)
Definition derived_initial (db : database) : list du_row :=
  map (fun u => mk_du u 0) (top_parts db).

(** [SELECT parts.uuid, level+1 FROM parts, where_used
    WHERE parts.base = where_used.uuidx]. *)
Definition derived_recursive (db : database) (w : du_row) : list du_row :=
  map (fun p => mk_du (part_uuid p) (d_level w + 1))
      (filter (fun p => holds (sql_eq (Some (base p)) (Some (d_uuidx w))))
              (parts db)).

Definition derived_where_used (db : database) (fuel : nat)
  : option (list du_row) :=
  cte_union du_row_eq_dec (derived_recursive db) (derived_initial db) fuel.

Record derived_row := mk_derived
  { d_MPN : option string; dp_level : nat; d_in_pr : nat; d_uuid : string }.

Definition derived_parts_tree (db : database) (fuel : nat)
  : option (list derived_row) :=
  option_map
    (flat_map (fun w =>
       map (fun p : option part =>
              mk_derived (option_map MPN p) (d_level w)
                         (in_pr_count db "part" (d_uuidx w)) (d_uuidx w))
           (left_join (fun w p => sql_eq (Some (d_uuidx w))
                                         (Some (part_uuid p)))
                      w (parts db))))
    (derived_where_used db fuel).

(** *** Natural order of names *)

(** Modelled from the spec: the pieces a name is compared by, a run of
    digits read as a number or a single other character. *)
Inductive token := TNum (n : N) | TChr (c : ascii).

Definition is_digit (c : ascii) : bool :=
  (48 <=? nat_of_ascii c)%nat && (nat_of_ascii c <=? 57)%nat.

Definition close_run (cur : option N) : list token :=
  match cur with Some n => [TNum n] | None => [] end.

Fixpoint tokens (s : string) (cur : option N) : list token :=
  match s with
  | EmptyString => close_run cur
  | String c s' =>
      if is_digit c
      then tokens s'
             (Some (10 * match cur with Some n => n | None => 0 end
                    + (N_of_ascii c - 48))%N)
      else close_run cur ++ TChr c :: tokens s' None
  end.

Definition token_compare (a b : token) : comparison :=
  match a, b with
  | TNum m, TNum n => N.compare m n
  | TChr c, TChr d => Ascii.compare c d
  | TNum _, TChr d => Ascii.compare "0"%char d
  | TChr c, TNum _ => Ascii.compare c "9"%char
  end.

Fixpoint tokens_compare (a b : list token) : comparison :=
  match a, b with
  | [], [] => Eq
  | [], _ :: _ => Lt
  | _ :: _, [] => Gt
  | x :: a', y :: b' =>
      match token_compare x y with
      | Eq => tokens_compare a' b'
      | c => c
      end
  end.

(** Modelled from the spec: [strcmp_natural] is declared in [util/util.hpp],
    which is not among these sources.  In the spec's words, embedded numbers
    compare numerically rather than lexicographically: runs of digits
    compare by their value, other characters by their code. *)
Definition strcmp_natural (a b : string) : comparison :=
  tokens_compare (tokens a None) (tokens b None).

(** *** The vocabulary of the properties *)

(** A typed ref: (type, uuid). *)
Definition ref : Type := (string * string)%type.

Definition dep_source (d : dependency) : ref := (dep_of_type d, dep_of_uuid d).
Definition dep_target (d : dependency) : ref := (dep_type d, dep_uuid d).

(** [dep_path db a n b]: [n] rows of [dependencies] lead from [a] to [b]. *)
Inductive dep_path (db : database) (a : ref) : nat -> ref -> Prop :=
| dep_path_here : dep_path db a 0 a
| dep_path_next n d :
    dep_path db a n (dep_source d) -> In d (dependencies db) ->
    dep_path db a (S n) (dep_target d).

(** A rank that every dependency lowers: the dependencies have no cycle. *)
Definition ranked (db : database) (rank : ref -> nat) : Prop :=
  forall d, In d (dependencies db) -> rank (dep_target d) < rank (dep_source d).

(** [derived_path db a n b]: [b] is derived from [a] in [n] steps, each from
    a part to a part that names it as base. *)
Inductive derived_path (db : database) (a : string) : nat -> string -> Prop :=
| derived_here : derived_path db a 0 a
| derived_next n p :
    derived_path db a n (base p) -> In p (parts db) ->
    derived_path db a (S n) (part_uuid p).

(** A rank that every base link lowers: the base links have no cycle. *)
Definition base_ranked (db : database) (rank : string -> nat) : Prop :=
  forall p, In p (parts db) -> rank (part_uuid p) < rank (base p).





(** Bounds on the rows of the two recursive tables. *)
Definition where_used_universe (db : database) (N : nat) : list wu_row :=
  flat_map (fun r =>
    flat_map (fun b : ref =>
      map (fun l => mk_wu (fst b) (snd b) l r) (seq 0 (S N)))
      (("part", r) :: map dep_target (dependencies db)))
    (top_parts db).

Definition root_rank (db : database) (rank : ref -> nat) : nat :=
  list_max (map (fun r => rank ("part", r)) (top_parts db)).

Definition derived_universe (db : database) (N : nat) : list du_row :=
  flat_map (fun u => map (fun l => mk_du u l) (seq 0 (S N)))
           (top_parts db ++ map part_uuid (parts db)).

End PrReview.

(** ** The recording canvas *)

Module CanvasCairo2.

(** The cairo context [cr], as far as [CanvasCairo2] drives it.  Cairo is a
    library outside these sources: the functions below follow its reference
    manual.  A [double] is an exact rational here, so [2e-5] is 1/50000. *)
Inductive LineCap := LINE_CAP_BUTT | LINE_CAP_ROUND | LINE_CAP_SQUARE.

Definition point : Type := (Q * Q)%type.

(** What the recording surface keeps of a [stroke]: the path in device
    space, and the pen in effect. *)
Record stroke_op := mk_stroke
  { stroke_path : list (list point);
    stroke_line_width : Q;
    stroke_line_cap : LineCap;
    stroke_rgb : (Q * Q * Q)%type }.

Record Context := mk_context
  { matrix : (Q * Q)%type;        (* the scale factors of the CTM *)
    source_rgb : (Q * Q * Q)%type;
    line_cap : LineCap;
    line_width : Q;
    path : list (list point);     (* the current path, device space *)
    recording : list stroke_op }.

(** [Cairo::Context::create(surface)] on a fresh recording surface. *)
Definition create : Context :=
  mk_context (1, 1)%Q (0, 0, 0)%Q LINE_CAP_BUTT 2%Q [] [].

Definition scale (c : Context) (sx sy : Q) : Context :=
  mk_context (fst (matrix c) * sx, snd (matrix c) * sy)%Q (source_rgb c)
             (line_cap c) (line_width c) (path c) (recording c).

Definition set_source_rgb (c : Context) (r g b : Q) : Context :=
  mk_context (matrix c) (r, g, b) (line_cap c) (line_width c) (path c)
             (recording c).

Definition set_line_cap (c : Context) (cap : LineCap) : Context :=
  mk_context (matrix c) (source_rgb c) cap (line_width c) (path c)
             (recording c).

Definition set_line_width (c : Context) (w : Q) : Context :=
  mk_context (matrix c) (source_rgb c) (line_cap c) w (path c) (recording c).

Definition user_to_device (c : Context) (px py : Q) : point :=
  (px * fst (matrix c), py * snd (matrix c))%Q.

(** [move_to] begins a new sub-path at the point. *)
Definition move_to (c : Context) (px py : Q) : Context :=
  mk_context (matrix c) (source_rgb c) (line_cap c) (line_width c)
             (path c ++ [[user_to_device c px py]]) (recording c).

(** [line_to] extends the last sub-path; with no current point it is a
    [move_to]. *)
Fixpoint extend_last (sub : list (list point)) (pt : point)
  : list (list point) :=
  match sub with
  | [] => [[pt]]
  | [s] => [s ++ [pt]]
  | s :: rest => s :: extend_last rest pt
  end.

Definition line_to (c : Context) (px py : Q) : Context :=
  mk_context (matrix c) (source_rgb c) (line_cap c) (line_width c)
             (extend_last (path c) (user_to_device c px py)) (recording c).

(** [stroke] records the current path with the current pen and clears the
    path. *)
Definition stroke (c : Context) : Context :=
  mk_context (matrix c) (source_rgb c) (line_cap c) (line_width c) []
             (recording c ++ [mk_stroke (path c) (line_width c) (line_cap c)
                                        (source_rgb c)]).

Record Coordi := mk_coordi { x : Z; y : Z }.

(** The canvas: [transform] is the placement member of the base class
    [Canvas] (canvas/canvas.hpp, not among these sources), taken as the map
    [transform.transform] computes. *)
Record canvas := mk_canvas
  { img_mode : bool;
    transform : Coordi -> Coordi;
    cr : Context }.

(** [CanvasCairo2::CanvasCairo2()]. *)
Definition CanvasCairo2 (placement : Coordi -> Coordi) : canvas :=
  let cr0 := create in
  let cr1 := scale cr0 (2 # 100000) (- (2 # 100000)) in
  let cr2 := set_source_rgb cr1 0 0 0 in
  let cr3 := set_line_cap cr2 LINE_CAP_ROUND in
  mk_canvas true placement cr3.

(** [CanvasCairo2::img_line]: [width] is a [uint64_t], [layer] an [int]. *)
Definition img_line (ca : canvas) (p0 p1 : Coordi) (width : Z) (layer : Z)
  (tr : bool) : canvas :=
  let q0 := if tr then transform ca p0 else p0 in
  let q1 := if tr then transform ca p1 else p1 in
  let c1 := move_to (cr ca) (inject_Z (x q0)) (inject_Z (y q0)) in
  let c2 := line_to c1 (inject_Z (x q1)) (inject_Z (y q1)) in
  let c3 := set_line_width c2 (inject_Z 100000) in
  let c4 := stroke c3 in
  mk_canvas (img_mode ca) (transform ca) c4.

(** One call of [img_line] with the placement in effect when it is made
    (the base class sets [transform] between calls). *)
Record line_call := mk_line_call
  { call_placement : Coordi -> Coordi;
    call_p0 : Coordi; call_p1 : Coordi;
    call_width : Z; call_layer : Z; call_tr : bool }.

Definition set_transform (ca : canvas) (placement : Coordi -> Coordi)
  : canvas :=
  mk_canvas (img_mode ca) placement (cr ca).

Definition draw (ca : canvas) (c : line_call) : canvas :=
  img_line (set_transform ca (call_placement c)) (call_p0 c) (call_p1 c)
           (call_width c) (call_layer c) (call_tr c).

Definition draw_all (calls : list line_call) : canvas :=
  fold_left draw calls (CanvasCairo2 (fun p => p)).

(** *** The vocabulary of the properties *)

Local Open Scope Q_scope.

(** The end point [img_line] passes to cairo. *)
Definition placed (c : line_call) (p : Coordi) : Coordi :=
  if call_tr c then call_placement c p else p.

(** [d] is [p] scaled by 2e-5 with the Y axis flipped. *)
Definition device_of (p : Coordi) (d : point) : Prop :=
  fst d == inject_Z (x p) * (2 # 100000) /\
  snd d == - (inject_Z (y p) * (2 # 100000)).

(** What one call leaves on the recording surface. *)
Definition records (c : line_call) (s : stroke_op) : Prop :=
  stroke_line_width s = inject_Z 100000 /\
  stroke_line_cap s = LINE_CAP_ROUND /\
  exists d0 d1,
    stroke_path s = [[d0; d1]] /\
    device_of (placed c (call_p0 c)) d0 /\
    device_of (placed c (call_p1 c)) d1.

Definition stroke_of (cr0 : Context) (c : line_call) : stroke_op :=
  mk_stroke
    [[user_to_device cr0 (inject_Z (x (placed c (call_p0 c))))
                         (inject_Z (y (placed c (call_p0 c))));
      user_to_device cr0 (inject_Z (x (placed c (call_p1 c))))
                         (inject_Z (y (placed c (call_p1 c))))]]
    (inject_Z 100000) (line_cap cr0) (source_rgb cr0).

End CanvasCairo2.

(** ** Example pools *)

Module Examples.
Import PrReview.

Definition GIT_DELTA_MODIFIED : Z := 3.

(** A part with its entity, its unit and the three symbols of the unit. *)
Definition pool_items : list item :=
  [ mk_item "part" "P1" "R1" "parts/P1.json";
    mk_item "entity" "E1" "Resistor" "entities/E1.json";
    mk_item "unit" "U1" "Resistor" "units/U1.json";
    mk_item "symbol" "S1" "R2" "symbols/S1.json";
    mk_item "symbol" "S2" "R10" "symbols/S2.json";
    mk_item "symbol" "S3" "R1" "symbols/S3.json" ].

Definition pool_dependencies : list dependency :=
  [ mk_dependency "part" "P1" "entity" "E1";
    mk_dependency "entity" "E1" "unit" "U1" ].

Definition pool_symbols : list symbol :=
  [ mk_symbol "S1" "U1" "R2"; mk_symbol "S2" "U1" "R10";
    mk_symbol "S3" "U1" "R1" ].

Definition pool (changed : list string) : database :=
  mk_database (map (fun f => mk_git_file f GIT_DELTA_MODIFIED) changed)
              pool_items [] [mk_part "P1" nil_uuid "R1"]
              pool_dependencies pool_symbols.

(** The part and its unit are changed, the symbols are not. *)
Definition unit_changed : database :=
  pool ["parts/P1.json"; "units/U1.json"].

(** The part and the symbol [S1] are changed, the unit is not. *)
Definition symbol_changed : database :=
  pool ["parts/P1.json"; "symbols/S1.json"].

(** A changed part [P2] derived from the unchanged part [P1]: the entity is
    used by [P2] and by its base. *)
Definition derived_changed : database :=
  mk_database [mk_git_file "parts/P2.json" GIT_DELTA_MODIFIED]
              [ mk_item "part" "P1" "R1" "parts/P1.json";
                mk_item "part" "P2" "R2" "parts/P2.json";
                mk_item "entity" "E1" "Resistor" "entities/E1.json" ]
              []
              [mk_part "P1" nil_uuid "R1"; mk_part "P2" "P1" "R2"]
              [ mk_dependency "part" "P2" "entity" "E1";
                mk_dependency "part" "P2" "part" "P1";
                mk_dependency "part" "P1" "entity" "E1" ]
              [].

(** Corrupt data: [PA] and [PB] name each other as base; [PA] is changed. *)
Definition cyclic_base : database :=
  mk_database [mk_git_file "parts/PA.json" GIT_DELTA_MODIFIED]
              [ mk_item "part" "PA" "A" "parts/PA.json";
                mk_item "part" "PB" "B" "parts/PB.json" ]
              []
              [mk_part "PA" "PB" "A"; mk_part "PB" "PA" "B"]
              [] [].

(** A changed file that is the 3D model of a package. *)
Definition model_changed : database :=
  mk_database [mk_git_file "3d_models/K1.step" GIT_DELTA_MODIFIED]
              [mk_item "package" "K1" "0603" "packages/K1/package.json"]
              [mk_model "K1" "3d_models/K1.step"]
              [] [] [].

(** A rank for the dependencies of [derived_changed]. *)
Definition derived_changed_rank (b : ref) : nat :=
  if snd b =? "P2" then 2 else if snd b =? "P1" then 1 else 0.

End Examples.

(** ** The report: the helpers of [main] and its other queries *)

Module Report.
Import Sql PrReview.

(** [std::to_string] of an [int]: decimal digits, a minus sign before a
    negative number. *)
Definition to_string (z : Z) : string :=
  DecimalString.NilZero.string_of_int (Z.to_int z).

(** The values of libgit2's [git_delta_t] that [delta_to_string] names. *)
Definition GIT_DELTA_ADDED : Z := 1.
Definition GIT_DELTA_MODIFIED : Z := 3.

Definition delta_to_string (delta : Z) : string :=
  if (delta =? GIT_DELTA_ADDED)%Z then "New"
  else if (delta =? GIT_DELTA_MODIFIED)%Z then "Modified"
  else "Unknown (" ++ to_string delta ++ ")".

(** [s.size() && cond]. *)
Definition surround_if (prefix suffix s : string) (cond : bool) : string :=
  if negb (String.length s =? 0)%nat && cond then prefix ++ s ++ suffix else s.

(** [isspace] in the "C" locale: space, and the controls from tab to
    carriage return.  (On a [char] above 127 the call is undefined in C;
    here it is false.) *)
Definition isspace (c : ascii) : bool :=
  let n := nat_of_ascii c in
  ((n =? 32) || ((9 <=? n) && (n <=? 13)))%nat.

(** [s.back()] of a string with first character [c] and rest [s]. *)
Fixpoint back (c : ascii) (s : string) : ascii :=
  match s with
  | EmptyString => c
  | String c' s' => back c' s'
  end.

(** [s.size() && (isspace(s.front()) || isspace(s.back()))]. *)
Definition needs_trim (s : string) : bool :=
  match s with
  | EmptyString => false
  | String c s' => isspace c || isspace (back c s')
  end.

Definition forbidden_datasheet_domains : list string :=
  ["rs-online.com"; "digikey.com"; "mouser.com"; "farnell.com";
   "octopart.com"].

(** [url.find(it)]: the place of the first occurrence, [None] for
    [std::string::npos]. *)
Definition find (url it : string) : option nat := String.index 0 it url.

(** The loop of [check_datasheet] over the domains still to try. *)
Fixpoint check_domains (domains : list string) (url : string)
  : option string :=
  match domains with
  | [] => None
  | it :: rest =>
      match find url it with
      | Some _ => Some it
      | None => check_domains rest url
      end
  end.

Definition check_datasheet (url : string) : option string :=
  check_domains forbidden_datasheet_domains url.

(** *** The alternate names of a pin

    [pop_back] is undefined on an empty string: [None]. *)
Fixpoint pop_back (s : string) : option string :=
  match s with
  | EmptyString => None
  | String c EmptyString => Some EmptyString
  | String c s' => option_map (String c) (pop_back s')
  end.

(** [for (const auto &it_alt : pin->names) alts += it_alt + ", "]. *)
Definition append_alts (names : list string) : string :=
  fold_left (fun alts it_alt : string => (alts ++ (it_alt ++ ", "))%string)
            names "".

(** [if (alts.size()) { alts.pop_back(); alts.pop_back(); }]. *)
Definition alternate_names (names : list string) : option string :=
  let alts := append_alts names in
  if negb (String.length alts =? 0)%nat
  then match pop_back alts with
       | Some alts' => pop_back alts'
       | None => None
       end
  else Some alts.

(** *** The names of the image files

    [uuid] is the text of the record's UUID. *)
Definition symbol_image (uuid : string) : string := "sym_" ++ uuid ++ ".png".

Definition placed_symbol_image (uuid : string) (mirror : bool) (angle : Z)
  : string :=
  "sym_" ++ uuid ++ "_" ++ (if mirror then "m" else "n") ++ to_string angle
         ++ ".png".

Definition package_image (uuid : string) : string := "pkg_" ++ uuid ++ ".png".

(** *** The pins no pad is mapped to (of a part without base)

    [gates]: each gate of the part's entity with the pins of its unit;
    [pads]: the pads of the package in the order [pads_sorted] has them;
    [pad_map]: [part.pad_map], each pad with the gate and pin it names.
    The set [all_pins] is a list without repeats; the order in which a
    [std::set] hands out its elements is not modelled. *)
Definition pin_ref : Type := (string * string)%type.

Definition pin_ref_eq_dec (a b : pin_ref) : {a = b} + {a <> b}.
Proof. decide equality; apply string_dec. Defined.

(** [all_pins.emplace(gate_uu, pin_uu)]. *)
Definition emplace (x : pin_ref) (set : list pin_ref) : list pin_ref :=
  if in_dec pin_ref_eq_dec x set then set else set ++ [x].

(** [all_pins.erase(...)]. *)
Definition erase (x : pin_ref) (set : list pin_ref) : list pin_ref :=
  remove pin_ref_eq_dec x set.

(** [part.pad_map.count(pad_uu)] and [part.pad_map.at(pad_uu)]. *)
Fixpoint pad_map_at (pad_map : list (string * pin_ref)) (pad_uu : string)
  : option pin_ref :=
  match pad_map with
  | [] => None
  | (k, v) :: rest => if k =? pad_uu then Some v else pad_map_at rest pad_uu
  end.

Definition collect_pins (gates : list (string * list string))
  : list pin_ref :=
  fold_left (fun all_pins gate =>
               fold_left (fun all_pins pin_uu =>
                            emplace (fst gate, pin_uu) all_pins)
                         (snd gate) all_pins)
            gates [].

Definition unmapped_pins (gates : list (string * list string))
  (pads : list string) (pad_map : list (string * pin_ref)) : list pin_ref :=
  fold_left (fun all_pins pad_uu =>
               match pad_map_at pad_map pad_uu with
               | Some it => erase it all_pins
               | None => all_pins
               end)
            pads (collect_pins gates).

(** *** "Items not associated with any part" *)

(** The rows of [git_files_view LEFT JOIN all_parts_tree ON ... LEFT JOIN
    derived_parts_tree ON ... WHERE all_parts_tree.uuid IS NULL AND
    derived_parts_tree.uuid IS NULL]. *)
Definition not_associated_rows (db : database) (apt : list tree_row)
  (dpt : list derived_row) : list gfv_row :=
  flat_map (fun g =>
    flat_map (fun a : option tree_row =>
      flat_map (fun d : option derived_row =>
        if holds (sql_and (is_null (option_map uuid a))
                          (is_null (option_map d_uuid d)))
        then [g] else [])
        (left_join (fun g d => sql_and
                                 (sql_eq (Some (gfv_uuid g)) (Some (d_uuid d)))
                                 (sql_eq (Some (gfv_type g)) (Some "part")))
                   g dpt))
      (left_join (fun g a => sql_and
                               (sql_eq (Some (gfv_uuid g)) (Some (uuid a)))
                               (sql_eq (Some (gfv_type g)) (Some (type a))))
                 g apt))
    (git_files_view db).

(** [SELECT git_files_view.type, git_files_view.name FROM ...], over the
    rows [apt] of [all_parts_tree] and [dpt] of [derived_parts_tree]. *)
Definition not_associated_select (db : database) (apt : list tree_row)
  (dpt : list derived_row) : list (string * string) :=
  map (fun g => (gfv_type g, gfv_name g)) (not_associated_rows db apt dpt).

(** *** [n_derived] *)

(** [a != b] in three-valued logic. *)
Definition sql_neq (a b : option string) : option bool :=
  option_map negb (sql_eq a b).

(** [SELECT COUNT( * ) FROM git_files_view LEFT JOIN parts ON
    git_files_view.uuid = parts.uuid AND git_files_view.type = 'part'
    WHERE parts.base != nil]. *)
Definition n_derived (db : database) : nat :=
  List.length
    (flat_map (fun g =>
       flat_map (fun p : option part =>
         if holds (sql_neq (option_map base p) (Some nil_uuid))
         then [g] else [])
         (left_join (fun g p => sql_and
                                  (sql_eq (Some (gfv_uuid g))
                                          (Some (part_uuid p)))
                                  (sql_eq (Some (gfv_type g)) (Some "part")))
                    g (parts db)))
       (git_files_view db)).

(** *** The vocabulary of the properties *)

(** [a] occurs in [s]. *)
Definition occurs (a s : string) : Prop :=
  exists pre post, s = (pre ++ a ++ post)%string.

(** The two end points a call of [img_line] hands to cairo. *)
Definition endpoints (c : CanvasCairo2.line_call)
  : CanvasCairo2.Coordi * CanvasCairo2.Coordi :=
  (CanvasCairo2.placed c (CanvasCairo2.call_p0 c),
   CanvasCairo2.placed c (CanvasCairo2.call_p1 c)).

End Report.

(** ** More example pools *)

Module ReportExamples.
Import PrReview.


(** A changed base part [P1] with an unchanged derived part [P2]. *)
Definition base_changed : database :=
  mk_database [mk_git_file "parts/P1.json" 3]
              [ mk_item "part" "P1" "R1" "parts/P1.json";
                mk_item "part" "P2" "R2" "parts/P2.json" ]
              []
              [mk_part "P1" nil_uuid "R1"; mk_part "P2" "P1" "R2"]
              [mk_dependency "part" "P2" "part" "P1"]
              [].


End ReportExamples.

(** ** What a call leaves on the recording, whatever the arithmetic *)

Module Recorded.
Import CanvasCairo2.


End Recorded.

(** ** The rows a recursive table has emitted so far *)

Module Emission.
Import Sql PrReview.

Section Emit.
Context {row : Type}.
Variable row_eq_dec : forall x y : row, {x = y} + {x <> y}.
Variable recursive_select : row -> list row.

(** The rows [cte_loop] has taken from the queue when the fuel is used up
    or the queue is empty, whichever comes first. *)
Fixpoint cte_emit (fuel : nat) (queue seen : list row) : list row :=
  match fuel with
  | O => []
  | S fuel' =>
      match queue with
      | [] => []
      | r :: q =>
          let (seen', fresh) := enqueue row_eq_dec seen (recursive_select r) in
          r :: cte_emit fuel' (q ++ fresh) seen'
      end
  end.

Definition cte_emitted (initial_select : list row) (fuel : nat) : list row :=
  let (seen, fresh) := enqueue row_eq_dec [] initial_select in
  cte_emit fuel fresh seen.

End Emit.

(** The rows of the recursive table of [derived_parts_tree] after [fuel]
    steps. *)
Definition derived_emitted (db : database) (fuel : nat) : list du_row :=
  cte_emitted du_row_eq_dec (derived_recursive db) (derived_initial db) fuel.

(** Levels are 64-bit integers in SQLite: [level+1] is exact below 2^63. *)
Definition exact_level (l : nat) : Prop := (N.of_nat l < 2 ^ 63)%N.

End Emission.

(** * Properties *)

(** ** Joins and three-valued conditions *)

Section SqlFacts.
Import Sql.

Lemma holds_sql_eq (a b : string) :
  holds (sql_eq (Some a) (Some b)) = true <-> a = b.
Proof. simpl. destruct (String.eqb_spec a b); split; congruence. Qed.

Lemma holds_sql_eq_false (a b : string) :
  holds (sql_eq (Some a) (Some b)) = false <-> a <> b.
Proof. simpl. destruct (String.eqb_spec a b); split; congruence. Qed.

Lemma holds_sql_and (c d : option bool) :
  holds (sql_and c d) = true <-> holds c = true /\ holds d = true.
Proof. destruct c as [[|]|], d as [[|]|]; simpl; intuition congruence. Qed.


Lemma holds_is_null {A} (o : option A) :
  holds (is_null o) = true <-> o = None.
Proof. destruct o; simpl; split; congruence. Qed.

Lemma left_join_None {A B} (on : A -> B -> option bool) a bs :
  In None (left_join on a bs) <-> forall b, In b bs -> holds (on a b) = false.
Proof.
  unfold left_join. split.
  - intros H b Hb. destruct (filter _ bs) as [|m ms] eqn:E.
    + destruct (holds (on a b)) eqn:Hh; [|reflexivity].
      assert (In b (filter (fun b => holds (on a b)) bs)) as Hin
          by (apply filter_In; auto).
      rewrite E in Hin. destruct Hin.
    + apply in_map_iff in H. destruct H as (x & Hx & _). discriminate.
  - intros H. destruct (filter _ bs) as [|m ms] eqn:E; [now left|].
    assert (In m (filter (fun b => holds (on a b)) bs)) as Hin
        by (rewrite E; now left).
    apply filter_In in Hin. destruct Hin as [Hm Hh].
    rewrite (H m Hm) in Hh. discriminate.
Qed.

Lemma left_join_Some {A B} (on : A -> B -> option bool) a bs b :
  In (Some b) (left_join on a bs) <-> In b bs /\ holds (on a b) = true.
Proof.
  unfold left_join. split.
  - intros H. destruct (filter _ bs) as [|m ms] eqn:E.
    + destruct H as [H|[]]. discriminate.
    + apply in_map_iff in H. destruct H as (x & Hx & Hin). inversion Hx; subst.
      rewrite <- E in Hin. now apply filter_In in Hin.
  - intros [Hb Hh].
    assert (In b (filter (fun b => holds (on a b)) bs)) as Hin
        by (apply filter_In; auto).
    destruct (filter _ bs) as [|m ms]; [destruct Hin|].
    apply in_map_iff. now exists b.
Qed.

Lemma left_join_inhabited {A B} (on : A -> B -> option bool) a bs :
  exists o, In o (left_join on a bs).
Proof.
  unfold left_join. destruct (filter _ bs) as [|m ms].
  - exists None. now left.
  - exists (Some m). now left.
Qed.

Lemma inner_join_In {A B} (on : A -> B -> option bool) a bs b :
  In b (inner_join on a bs) <-> In b bs /\ holds (on a b) = true.
Proof. unfold inner_join. apply filter_In. Qed.

End SqlFacts.

(** ** The change resolver *)

Section ChangeResolver.
Import Sql PrReview.




(** A changed 3D model file has no row in [all_items_view]: it is listed
    under "Non-items" although [git_files_view] has a row for it. *)
Example model_file_listed_twice :
  non_items Examples.model_changed = ["3d_models/K1.step"] /\
  map gfv_type (git_files_view Examples.model_changed) = ["model_3d"].
Proof. split; reflexivity. Qed.

End ChangeResolver.

(** ** Root selection *)

Section RootSelection.
Import Sql PrReview.


End RootSelection.

(** ** [UNION] and recursive tables *)

Section CteFacts.
Import Sql.
Context {row : Type}.
Variable row_eq_dec : forall x y : row, {x = y} + {x <> y}.

Lemma enqueue_spec (new seen seen' fresh : list row) :
  enqueue row_eq_dec seen new = (seen', fresh) ->
  (forall r, In r seen' <-> In r seen \/ In r new) /\
  (forall r, In r fresh <-> In r new /\ ~ In r seen) /\
  NoDup fresh /\
  (NoDup seen -> NoDup seen') /\
  List.length seen' = List.length seen + List.length fresh.
Proof.
  revert seen seen' fresh.
  induction new as [|a new IH]; intros seen seen' fresh H; simpl in H.
  - inversion H; subst. split; [|split; [|split; [|split]]].
    + intros r. simpl. tauto.
    + intros r. simpl. tauto.
    + constructor.
    + auto.
    + simpl. lia.
  - destruct (in_dec row_eq_dec a seen) as [Hin|Hnin].
    + destruct (IH _ _ _ H) as (H1 & H2 & H3 & H4 & H5).
      split; [|split; [|split; [|split]]]; try assumption.
      * intros r. rewrite H1. simpl.
        split; [tauto|intros [?|[<-|?]]; tauto].
      * intros r. rewrite H2. simpl.
        split; [tauto|intros [[<-|?] ?]; tauto].
    + destruct (enqueue row_eq_dec (a :: seen) new) as [s f] eqn:E.
      inversion H; subst. destruct (IH _ _ _ E) as (H1 & H2 & H3 & H4 & H5).
      split; [|split; [|split; [|split]]].
      * intros r. rewrite H1. simpl. tauto.
      * intros r. simpl. rewrite H2. simpl. split.
        -- intros [<-|[? ?]]; tauto.
        -- intros [[<-|?] ?]; [tauto|].
           destruct (row_eq_dec a r); [tauto|right; tauto].
      * constructor; [|assumption]. rewrite H2. simpl. tauto.
      * intros Hnd. apply H4. now constructor.
      * rewrite H5. simpl. lia.
Qed.

Lemma distinct_In (l : list row) (r : row) :
  In r (distinct row_eq_dec l) <-> In r l.
Proof.
  unfold distinct. destruct (enqueue row_eq_dec [] l) as [s f] eqn:E.
  destruct (enqueue_spec _ _ _ _ E) as (_ & H2 & _). simpl. rewrite H2.
  simpl. tauto.
Qed.


Lemma union_In (l1 l2 : list row) (r : row) :
  In r (union row_eq_dec l1 l2) <-> In r l1 \/ In r l2.
Proof. unfold union. rewrite distinct_In. apply in_app_iff. Qed.

Variable recursive_select : row -> list row.
Variable initial_select : list row.

Local Abbreviation table_row := (cte_row recursive_select initial_select).
Local Abbreviation loop := (cte_loop row_eq_dec recursive_select).

Lemma cte_loop_mono (fuel fuel' : nat) (queue seen out : list row) :
  loop fuel queue seen = Some out -> fuel <= fuel' ->
  loop fuel' queue seen = Some out.
Proof.
  revert fuel' queue seen out.
  induction fuel as [|fuel IH]; intros fuel' queue seen out H Hle;
    [discriminate|].
  destruct fuel' as [|fuel']; [lia|]. simpl in *.
  destruct queue as [|r q]; [assumption|].
  destruct (enqueue row_eq_dec seen (recursive_select r)) as [s f].
  destruct (loop fuel (q ++ f) s) as [o|] eqn:E; [|discriminate].
  rewrite (IH fuel' _ _ _ E); [assumption|lia].
Qed.

Lemma cte_loop_sound (P : row -> Prop) :
  (forall r r', P r -> In r' (recursive_select r) -> P r') ->
  forall fuel queue seen out,
    loop fuel queue seen = Some out ->
    (forall r, In r queue -> P r) ->
    forall r, In r out -> P r.
Proof.
  intros Hstep. induction fuel as [|fuel IH]; intros queue seen out H Hq;
    [discriminate|].
  simpl in H. destruct queue as [|a q].
  - inversion H; subst. intros r [].
  - destruct (enqueue row_eq_dec seen (recursive_select a)) as [s f] eqn:E.
    destruct (loop fuel (q ++ f) s) as [o|] eqn:El; [|discriminate].
    inversion H; subst. intros r [<-|Hr]; [apply Hq; now left|].
    apply (IH _ _ _ El); [|assumption].
    intros x Hx. apply in_app_iff in Hx. destruct Hx as [Hx|Hx].
    + apply Hq. now right.
    + destruct (enqueue_spec _ _ _ _ E) as (_ & H2 & _).
      apply H2 in Hx. apply (Hstep a); [apply Hq; now left|tauto].
Qed.

Lemma cte_loop_spec (fuel : nat) :
  forall queue seen out,
    loop fuel queue seen = Some out ->
    NoDup queue -> (forall r, In r queue -> In r seen) ->
    NoDup out /\
    (forall r, In r queue -> In r out) /\
    (forall r, In r out -> In r queue \/ ~ In r seen) /\
    (forall r r', In r out -> In r' (recursive_select r) ->
                  In r' out \/ In r' seen).
Proof.
  induction fuel as [|fuel IH]; intros queue seen out H Hnd Hsub;
    [discriminate|].
  simpl in H. destruct queue as [|a q].
  - inversion H; subst. split; [constructor|].
    split; [intros r []|]. split; [intros r []|intros r r' []].
  - destruct (enqueue row_eq_dec seen (recursive_select a)) as [s f] eqn:E.
    destruct (loop fuel (q ++ f) s) as [o|] eqn:El; [|discriminate].
    inversion H; subst; clear H.
    destruct (enqueue_spec _ _ _ _ E) as (E1 & E2 & E3 & _ & _).
    inversion Hnd as [|? ? Ha Hq]; subst.
    assert (NoDup (q ++ f)) as Hnd'.
    { apply NoDup_app; try assumption.
      intros x Hx Hf. apply E2 in Hf. destruct Hf as [_ Hf]. apply Hf.
      apply Hsub. now right. }
    assert (forall r, In r (q ++ f) -> In r s) as Hsub'.
    { intros x Hx. apply E1. apply in_app_iff in Hx. destruct Hx as [Hx|Hx].
      - left. apply Hsub. now right.
      - right. now apply E2 in Hx. }
    destruct (IH _ _ _ El Hnd' Hsub') as (I1 & I2 & I3 & I4).
    split; [|split; [|split]].
    + constructor; [|assumption]. intros Hin.
      destruct (I3 _ Hin) as [Hin'|Hin'].
      * apply in_app_iff in Hin'. destruct Hin' as [?|Hf]; [tauto|].
        apply E2 in Hf. destruct Hf as [_ Hf]. apply Hf. apply Hsub. now left.
      * apply Hin'. apply E1. left. apply Hsub. now left.
    + intros r [<-|Hr]; [now left|]. right. apply I2. apply in_app_iff. tauto.
    + intros r [<-|Hr]; [left; now left|].
      destruct (I3 _ Hr) as [Hin|Hin].
      * apply in_app_iff in Hin. destruct Hin as [?|Hf]; [left; now right|].
        right. now apply E2 in Hf.
      * right. intros Hs. apply Hin. apply E1. tauto.
    + intros r r' [<-|Hr] Hr'.
      * destruct (in_dec row_eq_dec r' seen) as [?|Hn]; [tauto|].
        left. right. apply I2. apply in_app_iff. right. apply E2. tauto.
      * destruct (I4 _ _ Hr Hr') as [?|Hs]; [left; now right|].
        apply E1 in Hs. destruct Hs as [?|Hs]; [tauto|].
        destruct (in_dec row_eq_dec r' seen) as [?|Hn]; [tauto|].
        left. right. apply I2. apply in_app_iff. right. apply E2. tauto.
Qed.

(** A recursive table that is computed holds each of its rows once. *)
Theorem cte_union_spec (fuel : nat) (out : list row) :
  cte_union row_eq_dec recursive_select initial_select fuel = Some out ->
  NoDup out /\ forall r, In r out <-> table_row r.
Proof.
  unfold cte_union.
  destruct (enqueue row_eq_dec [] initial_select) as [s f] eqn:E.
  destruct (enqueue_spec _ _ _ _ E) as (E1 & E2 & E3 & _ & _).
  intros H.
  assert (forall r, In r f -> In r s) as Hsub.
  { intros r Hr. apply E1. right. now apply E2 in Hr. }
  destruct (cte_loop_spec _ _ _ _ H E3 Hsub) as (I1 & I2 & I3 & I4).
  split; [assumption|]. intros r. split.
  - revert r. apply (cte_loop_sound table_row) with (2 := H).
    { intros x x'. apply cte_recursive. }
    intros r Hr. apply cte_initial. now apply E2 in Hr.
  - induction 1 as [r Hr|r r' _ IH Hr'].
    + apply I2. apply E2. simpl. tauto.
    + destruct (I4 _ _ IH Hr') as [?|Hs]; [assumption|].
      apply I2. apply E2. apply E1 in Hs. simpl in *. tauto.
Qed.

Lemma cte_loop_terminates (U : list row) :
  (forall r, table_row r -> In r U) ->
  forall fuel queue seen,
    NoDup seen -> (forall r, In r seen -> table_row r) ->
    (forall r, In r queue -> table_row r) ->
    fuel + List.length seen > List.length U + List.length queue ->
    exists out, loop fuel queue seen = Some out.
Proof.
  intros HU. induction fuel as [|fuel IH]; intros queue seen Hnd Hs Hq Hlt.
  - assert (List.length seen <= List.length U)
      by (apply NoDup_incl_length; [assumption|intros r Hr; auto]).
    simpl in Hlt. lia.
  - simpl. destruct queue as [|a q]; [now exists []|].
    destruct (enqueue row_eq_dec seen (recursive_select a)) as [s f] eqn:E.
    destruct (enqueue_spec _ _ _ _ E) as (E1 & E2 & _ & E4 & E5).
    assert (forall r, In r f -> table_row r) as Hf.
    { intros r Hr. apply E2 in Hr. apply (cte_recursive _ _ a); [|tauto].
      apply Hq. now left. }
    destruct (IH (q ++ f) s) as [o Ho].
    + auto.
    + intros r Hr. apply E1 in Hr. destruct Hr as [?|Hr]; [auto|].
      destruct (in_dec row_eq_dec r seen); [auto|]. apply Hf. apply E2. tauto.
    + intros r Hr. apply in_app_iff in Hr. destruct Hr; [|auto].
      apply Hq. now right.
    + rewrite length_app, E5. simpl in Hlt. lia.
    + exists (a :: o). now rewrite Ho.
Qed.

(** When the rows of the table are finitely many the evaluation ends. *)
Theorem cte_union_terminates (U : list row) :
  (forall r, table_row r -> In r U) ->
  exists out,
    cte_union row_eq_dec recursive_select initial_select
              (S (List.length U)) = Some out.
Proof.
  intros HU. unfold cte_union.
  destruct (enqueue row_eq_dec [] initial_select) as [s f] eqn:E.
  destruct (enqueue_spec _ _ _ _ E) as (E1 & E2 & _ & E4 & E5).
  apply (cte_loop_terminates U HU).
  - apply E4. constructor.
  - intros r Hr. apply cte_initial. apply E1 in Hr. simpl in Hr. tauto.
  - intros r Hr. apply cte_initial. now apply E2 in Hr.
  - rewrite E5. simpl. lia.
Qed.

(** When the rows of the table are unbounded in some measure no fuel is
    enough. *)
Theorem cte_union_diverges (mu : row -> nat) :
  (forall n, exists r, table_row r /\ n <= mu r) ->
  forall fuel,
    cte_union row_eq_dec recursive_select initial_select fuel = None.
Proof.
  intros Hunb fuel.
  destruct (cte_union _ _ _ fuel) as [out|] eqn:E; [|reflexivity].
  destruct (cte_union_spec _ _ E) as [_ Hiff].
  destruct (Hunb (S (list_max (map mu out)))) as (r & Hr & Hle).
  apply Hiff in Hr.
  assert (mu r <= list_max (map mu out)).
  { assert (Forall (fun k => k <= list_max (map mu out)) (map mu out)) as HF
        by (apply list_max_le; lia).
    rewrite Forall_forall in HF. apply HF. now apply in_map. }
  lia.
Qed.

End CteFacts.

(** ** The forward closure [where_used] of [parts_tree] *)

Section ForwardClosure.
Import Sql PrReview.

Lemma where_used_recursive_In (db : database) (w w' : wu_row) :
  In w' (where_used_recursive db w) <->
  exists d, In d (dependencies db) /\ dep_source d = (typex w, uuidx w) /\
            w' = mk_wu (dep_type d) (dep_uuid d) (S (levelx w)) (rootx w).
Proof.
  unfold where_used_recursive. rewrite in_map_iff. split.
  - intros (d & <- & Hd). apply filter_In in Hd. destruct Hd as [Hd Hc].
    apply holds_sql_and in Hc. destruct Hc as [Ht Hu].
    apply holds_sql_eq in Ht, Hu. exists d. repeat split; try assumption.
    + unfold dep_source. congruence.
    + now rewrite Nat.add_1_r.
  - intros (d & Hd & Hs & ->). exists d. split; [now rewrite Nat.add_1_r|].
    apply filter_In. split; [assumption|]. inversion Hs.
    apply holds_sql_and. split; now apply holds_sql_eq.
Qed.

Lemma where_used_row_iff (db : database) (w : wu_row) :
  cte_row (where_used_recursive db) (where_used_initial db) w <->
  In (rootx w) (top_parts db) /\
  dep_path db ("part", rootx w) (levelx w) (typex w, uuidx w).
Proof.
  split.
  - induction 1 as [w Hw|w w' _ [IHr IHp] Hw'].
    + unfold where_used_initial in Hw. apply in_map_iff in Hw.
      destruct Hw as (u & <- & Hu). simpl. split; [assumption|constructor].
    + apply where_used_recursive_In in Hw'. destruct Hw' as (d & Hd & Hs & ->).
      simpl. split; [assumption|].
      apply (dep_path_next db _ _ d); [|assumption]. now rewrite Hs.
  - destruct w as [t u l r]. simpl. intros [Hr Hp].
    remember (t, u) as b eqn:Eb. revert t u Eb.
    induction Hp as [|n d Hp IH Hd]; intros t u Eb.
    + inversion Eb; subst. apply cte_initial. unfold where_used_initial.
      apply in_map_iff. eexists. split; [reflexivity|assumption].
    + inversion Eb; subst.
      apply (cte_recursive _ _ (mk_wu (dep_of_type d) (dep_of_uuid d) n r)).
      * now apply IH.
      * apply where_used_recursive_In. now exists d.
Qed.

Lemma dep_path_rank (db : database) (rank : ref -> nat) (a b : ref) (n : nat) :
  ranked db rank -> dep_path db a n b -> n + rank b <= rank a.
Proof.
  intros Hrk. induction 1 as [|n d _ IH Hd]; [lia|].
  specialize (Hrk d Hd). lia.
Qed.

Lemma dep_path_target (db : database) (a b : ref) (n : nat) :
  dep_path db a n b ->
  b = a \/ exists d, In d (dependencies db) /\ dep_target d = b.
Proof.
  destruct 1 as [|n d _ Hd]; [now left|]. right. now exists d.
Qed.

Lemma where_used_in_universe (db : database) (rank : ref -> nat) (w : wu_row) :
  ranked db rank ->
  cte_row (where_used_recursive db) (where_used_initial db) w ->
  In w (where_used_universe db (root_rank db rank)).
Proof.
  intros Hrk Hw. apply where_used_row_iff in Hw. destruct Hw as [Hr Hp].
  unfold where_used_universe. apply in_flat_map. exists (rootx w).
  split; [assumption|]. apply in_flat_map. exists (typex w, uuidx w). split.
  - destruct (dep_path_target _ _ _ _ Hp) as [->|(d & Hd & <-)]; [now left|].
    right. now apply in_map.
  - apply in_map_iff. exists (levelx w). split; [now destruct w|].
    apply in_seq. pose proof (dep_path_rank _ _ _ _ _ Hrk Hp) as Hle.
    assert (rank ("part", rootx w) <= root_rank db rank).
    { unfold root_rank.
      assert (Forall (fun k => k <= list_max
                                      (map (fun r => rank ("part", r))
                                           (top_parts db)))
                     (map (fun r => rank ("part", r)) (top_parts db))) as HF
          by (apply list_max_le; lia).
      rewrite Forall_forall in HF. apply HF.
      apply in_map_iff. now exists (rootx w). }
    lia.
Qed.

Lemma where_used_computed (db : database) (rank : ref -> nat) :
  ranked db rank -> exists fuel rows, where_used db fuel = Some rows.
Proof.
  intros Hrk.
  destruct (cte_union_terminates wu_row_eq_dec (where_used_recursive db)
              (where_used_initial db)
              (where_used_universe db (root_rank db rank))) as [rows Hrows].
  { intros w. now apply where_used_in_universe. }
  now exists (S (List.length (where_used_universe db (root_rank db rank)))),
             rows.
Qed.

Lemma where_used_fuel_irrelevant (db : database) (f1 f2 : nat) r1 r2 :
  where_used db f1 = Some r1 -> where_used db f2 = Some r2 -> r1 = r2.
Proof.
  unfold where_used, cte_union.
  destruct (enqueue wu_row_eq_dec [] (where_used_initial db)) as [s f].
  intros H1 H2. destruct (Nat.le_ge_cases f1 f2) as [Hle|Hle].
  - rewrite (cte_loop_mono _ _ _ _ _ _ _ H1 Hle) in H2. congruence.
  - rewrite (cte_loop_mono _ _ _ _ _ _ _ H2 Hle) in H1. congruence.
Qed.

(** C3, as the code has it.  Whenever the recursive table [where_used] is
    computed (and it is when the dependencies have no cycle), no row occurs
    in it twice and it holds the row (type, uuid, level, root) exactly when
    root is in [top_parts] and a path of level dependencies leads from the
    root part to (type, uuid): a ref is emitted once for each length of
    path that reaches it, not once with the least length. *)
Theorem where_used_once_per_depth (db : database) :
  (forall fuel rows,
      where_used db fuel = Some rows ->
      NoDup rows /\
      forall t u l r,
        In (mk_wu t u l r) rows <->
        In r (top_parts db) /\ dep_path db ("part", r) l (t, u))
  /\
  (forall rank, ranked db rank ->
                exists fuel rows, where_used db fuel = Some rows).
Proof.
  split; [|apply where_used_computed].
  intros fuel rows H.
  destruct (cte_union_spec _ _ _ _ _ H) as [Hnd Hiff].
  split; [assumption|]. intros t u l r. rewrite Hiff.
  apply (where_used_row_iff db (mk_wu t u l r)).
Qed.

Lemma where_used_once_per_depth_witness :
  exists rows,
    where_used Examples.derived_changed 10 = Some rows /\ NoDup rows /\
    (In (mk_wu "entity" "E1" 2 "P2") rows <->
     In "P2" (top_parts Examples.derived_changed) /\
     dep_path Examples.derived_changed ("part", "P2") 2 ("entity", "E1")).
Proof.
  eexists. split; [vm_compute; reflexivity|].
  destruct (proj1 (where_used_once_per_depth Examples.derived_changed) 10 _
                  eq_refl) as [Hnd Hiff].
  split; [exact Hnd|apply Hiff].
Defined.

Lemma derived_changed_ranked :
  ranked Examples.derived_changed Examples.derived_changed_rank.
Proof. intros d [<-|[<-|[<-|[]]]]; vm_compute; lia. Qed.

(** C3, as the spec has it, fails: a changed part [P2] derived from [P1]
    reaches its entity directly and through its base, and [where_used] (and
    with it the displayed tree) holds the entity at level 1 and at level 2
    under the one root. *)
Lemma entity_emitted_at_two_depths :
  exists rows tree,
    where_used Examples.derived_changed 10 = Some rows /\
    In (mk_wu "entity" "E1" 1 "P2") rows /\
    In (mk_wu "entity" "E1" 2 "P2") rows /\
    all_parts_tree Examples.derived_changed 10 = Some tree /\
    In (mk_tree "entity" (Some "Resistor") 1 1 0 "E1" "P2") tree /\
    In (mk_tree "entity" (Some "Resistor") 2 1 0 "E1" "P2") tree.
Proof.
  eexists. eexists. split; [vm_compute; reflexivity|].
  split; [simpl; tauto|]. split; [simpl; tauto|].
  split; [vm_compute; reflexivity|]. simpl. tauto.
Qed.

End ForwardClosure.

(** ** [ORDER BY root, type_order, level] *)

Section OrderBy.
Import Sql PrReview.











Lemma insert_row_perm (r : tree_row) (l : list tree_row) :
  Permutation (insert_row r l) (r :: l).
Proof.
  induction l as [|x xs IH]; simpl; [reflexivity|].
  destruct (key_leb r x); [reflexivity|].
  rewrite IH. apply perm_swap.
Qed.

Lemma order_by_perm (l : list tree_row) : Permutation (order_by l) l.
Proof.
  induction l as [|r rest IH]; simpl; [reflexivity|].
  rewrite insert_row_perm. now constructor.
Qed.

Lemma order_by_In (l : list tree_row) (r : tree_row) :
  In r (order_by l) <-> In r l.
Proof.
  split; apply Permutation_in;
    [apply order_by_perm|apply Permutation_sym, order_by_perm].
Qed.



(** *** The order of whole rows *)

Section Comparators.
Context {A : Type}.





End Comparators.
















Lemma insert_distinct_perm (r : tree_row) (l : list tree_row) :
  Permutation (insert_distinct r l) (r :: l).
Proof.
  induction l as [|x xs IH]; simpl; [reflexivity|].
  destruct (row_leb r x); [reflexivity|].
  rewrite IH. apply perm_swap.
Qed.

Lemma in_row_order_perm (l : list tree_row) : Permutation (in_row_order l) l.
Proof.
  induction l as [|r rest IH]; simpl; [reflexivity|].
  rewrite insert_distinct_perm. now constructor.
Qed.

Lemma in_row_order_In (l : list tree_row) (r : tree_row) :
  In r (in_row_order l) <-> In r l.
Proof.
  split; apply Permutation_in;
    [apply in_row_order_perm|apply Permutation_sym, in_row_order_perm].
Qed.




End OrderBy.

(** ** The display tree [all_parts_tree] *)

Section DisplayTree.
Import Sql PrReview.

Lemma in_pr_count_in_change (db : database) (t u : string) :
  in_pr_count db t u <> 0 <-> in_change db t u.
Proof.
  unfold in_pr_count, in_change. split.
  - intros H. destruct (filter _ (git_files_view db)) as [|g gs] eqn:E;
      [now elim H|].
    assert (In g (filter (fun g => holds (sql_and
                            (sql_eq (Some (gfv_uuid g)) (Some u))
                            (sql_eq (Some (gfv_type g)) (Some t))))
                         (git_files_view db))) as Hg by (rewrite E; now left).
    apply filter_In in Hg. destruct Hg as [Hg Hc].
    apply holds_sql_and in Hc. destruct Hc as [Hu Ht].
    apply holds_sql_eq in Hu, Ht. now exists g.
  - intros (g & Hg & Ht & Hu) Hz. apply length_zero_iff_nil in Hz.
    assert (In g (filter (fun g => holds (sql_and
                            (sql_eq (Some (gfv_uuid g)) (Some u))
                            (sql_eq (Some (gfv_type g)) (Some t))))
                         (git_files_view db))) as Hin.
    { apply filter_In. split; [assumption|].
      apply holds_sql_and. split; now apply holds_sql_eq. }
    rewrite Hz in Hin. destruct Hin.
Qed.

Lemma from_pr_true (r : tree_row) : from_pr r = true <-> in_pr r <> 0.
Proof.
  unfold from_pr. destruct (Nat.eqb_spec (in_pr r) 0); simpl; split;
    congruence.
Qed.

Lemma type_order_of_values (t : string) :
  type_order_of t <> 3%Z /\ type_order_of t <> 5%Z.
Proof.
  unfold type_order_of.
  repeat match goal with |- context [if ?c then _ else _] => destruct c end;
    split; discriminate.
Qed.

Lemma type_order_of_unlisted (t : string) :
  t = "model_3d" \/ t = "symbol" -> type_order_of t = (-1)%Z.
Proof. intros [->| ->]; reflexivity. Qed.

(** A row of [parts_tree] is a row of [where_used] with its order and its
    count of changes. *)
Lemma parts_tree_select_In (db : database) (wu : list wu_row) (r : tree_row) :
  In r (parts_tree_select db wu) ->
  In (mk_wu (type r) (uuid r) (level r) (root r)) wu /\
  type_order r = type_order_of (type r) /\
  in_pr r = in_pr_count db (type r) (uuid r).
Proof.
  unfold parts_tree_select. rewrite in_flat_map. intros (w & Hw & Hr).
  apply in_map_iff in Hr. destruct Hr as (o & <- & _). simpl.
  destruct w. auto.
Qed.

Lemma model_rows_In (db : database) (pt : list tree_row) (r : tree_row) :
  In r (model_rows db pt) <->
  exists p m, In p pt /\ type p = "package" /\ In m (models db) /\
              package_uuid m = uuid p /\
              r = mk_tree "model_3d" (Some (model_filename m)) (level p + 1) 5
                          (in_pr p) "" (root p).
Proof.
  unfold model_rows. rewrite in_flat_map. split.
  - intros (p & Hp & Hr). apply in_map_iff in Hr. destruct Hr as (m & <- & Hm).
    apply inner_join_In in Hm. destruct Hm as [Hm Hc].
    apply holds_sql_and in Hc. destruct Hc as [Hu Ht].
    apply holds_sql_eq in Hu, Ht. now exists p, m.
  - intros (p & m & Hp & Ht & Hm & Hu & ->). exists p. split; [assumption|].
    apply in_map_iff. exists m. split; [reflexivity|].
    apply inner_join_In. split; [assumption|].
    apply holds_sql_and. split; now apply holds_sql_eq.
Qed.

Lemma symbol_rows_In (db : database) (pt : list tree_row) (r : tree_row) :
  In r (symbol_rows db pt) <->
  exists p s, In p pt /\ type p = "unit" /\ In s (symbols db) /\
              symbol_unit s = uuid p /\
              r = mk_tree "symbol" (Some (symbol_name s)) (level p + 1) 3
                          (in_pr p) (symbol_uuid s) (root p).
Proof.
  unfold symbol_rows. rewrite in_flat_map. split.
  - intros (p & Hp & Hr). apply in_map_iff in Hr. destruct Hr as (s & <- & Hs).
    apply inner_join_In in Hs. destruct Hs as [Hs Hc].
    apply holds_sql_and in Hc. destruct Hc as [Hu Ht].
    apply holds_sql_eq in Hu, Ht. now exists p, s.
  - intros (p & s & Hp & Ht & Hs & Hu & ->). exists p. split; [assumption|].
    apply in_map_iff. exists s. split; [reflexivity|].
    apply inner_join_In. split; [assumption|].
    apply holds_sql_and. split; now apply holds_sql_eq.
Qed.

Lemma all_parts_tree_select_In (db : database) (pt : list tree_row) r :
  In r (all_parts_tree_select db pt) <->
  In r pt \/ In r (model_rows db pt) \/ In r (symbol_rows db pt).
Proof.
  unfold all_parts_tree_select.
  rewrite order_by_In, in_row_order_In, !union_In. tauto.
Qed.

Lemma all_parts_tree_Some (db : database) (fuel : nat) rows :
  all_parts_tree db fuel = Some rows ->
  exists wu, where_used db fuel = Some wu /\
             parts_tree db fuel = Some (parts_tree_select db wu) /\
             rows = all_parts_tree_select db (parts_tree_select db wu).
Proof.
  unfold all_parts_tree, parts_tree.
  destruct (where_used db fuel) as [wu|]; [|discriminate]. simpl.
  intros H. inversion H. now exists wu.
Qed.

Lemma all_parts_tree_computed (db : database) (rank : ref -> nat) :
  ranked db rank -> exists fuel rows, all_parts_tree db fuel = Some rows.
Proof.
  intros Hrk. destruct (where_used_computed db rank Hrk) as (fuel & wu & H).
  exists fuel. unfold all_parts_tree, parts_tree. rewrite H. simpl. eauto.
Qed.

Lemma all_parts_tree_fuel_irrelevant (db : database) (f1 f2 : nat) r1 r2 :
  all_parts_tree db f1 = Some r1 -> all_parts_tree db f2 = Some r2 -> r1 = r2.
Proof.
  intros H1 H2.
  destruct (all_parts_tree_Some _ _ _ H1) as (w1 & Hw1 & _ & ->).
  destruct (all_parts_tree_Some _ _ _ H2) as (w2 & Hw2 & _ & ->).
  now rewrite (where_used_fuel_irrelevant _ _ _ _ _ Hw1 Hw2).
Qed.






(** C4, as the code has it.  Whenever the display tree is computed (and it
    is when the dependencies have no cycle), each of its rows is a row of
    [parts_tree], set in bold exactly when its own (type, uuid) is in the
    change set; or the symbol row synthesized from a unit row of
    [parts_tree] and a symbol of that unit, with the unit row's flag, set
    in bold exactly when that unit is in the change set; or the model row
    synthesized from a package row and a model of that package, with the
    package row's flag, set in bold exactly when that package is in the
    change set. *)
Theorem from_pr_iff_in_change (db : database) :
  (forall fuel rows,
      all_parts_tree db fuel = Some rows ->
      exists pt,
        parts_tree db fuel = Some pt /\
        forall r, In r rows ->
          (In r pt /\ type_order r <> 3%Z /\ type_order r <> 5%Z /\
           (from_pr r = true <-> in_change db (type r) (uuid r)))
          \/
          (exists p s,
              In p pt /\ type p = "unit" /\ In s (symbols db) /\
              symbol_unit s = uuid p /\
              r = mk_tree "symbol" (Some (symbol_name s)) (level p + 1) 3
                          (in_pr p) (symbol_uuid s) (root p) /\
              from_pr r = from_pr p /\
              (from_pr r = true <-> in_change db "unit" (uuid p)))
          \/
          (exists p m,
              In p pt /\ type p = "package" /\ In m (models db) /\
              package_uuid m = uuid p /\
              r = mk_tree "model_3d" (Some (model_filename m)) (level p + 1)
                          5 (in_pr p) "" (root p) /\
              from_pr r = from_pr p /\
              (from_pr r = true <-> in_change db "package" (uuid p))))
  /\
  (forall rank, ranked db rank ->
                exists fuel rows, all_parts_tree db fuel = Some rows).
Proof.
  split; [|apply all_parts_tree_computed].
  intros fuel rows H.
  destruct (all_parts_tree_Some _ _ _ H) as (wu & Hwu & Hpt & ->).
  exists (parts_tree_select db wu). split; [assumption|]. intros r Hr.
  assert (forall p, In p (parts_tree_select db wu) ->
                    (from_pr p = true <-> in_change db (type p) (uuid p)))
    as Hflag.
  { intros p Hp. destruct (parts_tree_select_In _ _ _ Hp) as (_ & _ & Hc).
    rewrite from_pr_true, Hc. apply in_pr_count_in_change. }
  apply all_parts_tree_select_In in Hr. destruct Hr as [Hr|[Hr|Hr]].
  - left. destruct (parts_tree_select_In _ _ _ Hr) as (_ & Ho & _).
    destruct (type_order_of_values (type r)) as [H3 H5].
    rewrite Ho. repeat split; try assumption; now apply Hflag.
  - right. right. apply model_rows_In in Hr.
    destruct Hr as (p & m & Hp & Ht & Hm & Hu & ->).
    exists p, m. repeat split; try assumption.
    + intros Hf. rewrite <- Ht. now apply (Hflag p Hp).
    + intros Hc. apply (Hflag p Hp). now rewrite Ht.
  - right. left. apply symbol_rows_In in Hr.
    destruct Hr as (p & sy & Hp & Ht & Hs & Hu & ->).
    exists p, sy. repeat split; try assumption.
    + intros Hf. rewrite <- Ht. now apply (Hflag p Hp).
    + intros Hc. apply (Hflag p Hp). now rewrite Ht.
Qed.

Lemma unit_changed_not_symbol :
  ~ in_change Examples.unit_changed "symbol" "S1".
Proof.
  intros (g & Hg & Ht & Hu). vm_compute in Hg.
  destruct Hg as [<-|[<-|[]]]; discriminate.
Qed.

Lemma from_pr_iff_in_change_witness :
  exists p s,
    type p = "unit" /\ In s (symbols Examples.unit_changed) /\
    symbol_unit s = uuid p /\
    mk_tree "symbol" (Some "R2") 3 3 1 "S1" "P1" =
    mk_tree "symbol" (Some (symbol_name s)) (level p + 1) 3 (in_pr p)
            (symbol_uuid s) (root p) /\
    (from_pr (mk_tree "symbol" (Some "R2") 3 3 1 "S1" "P1") = true <->
     in_change Examples.unit_changed "unit" (uuid p)).
Proof.
  destruct (proj1 (from_pr_iff_in_change Examples.unit_changed) 10 _ eq_refl)
    as (pt & _ & H).
  destruct (H (mk_tree "symbol" (Some "R2") 3 3 1 "S1" "P1"))
    as [(_ & H3 & _)|[(p & s & _ & Ht & Hs & Hu & E & _ & Hf)
                     |(p & m & _ & _ & _ & _ & E & _)]].
  - vm_compute. tauto.
  - exfalso. now apply H3.
  - exists p, s. auto.
  - discriminate E.
Defined.

(** C4, as the spec has it, fails on a synthesized row: the unit is changed
    and its symbol is not, yet the symbol's row is set in bold. *)
Lemma symbol_row_bold_without_change :
  exists rows r,
    all_parts_tree Examples.unit_changed 10 = Some rows /\ In r rows /\
    type r = "symbol" /\ uuid r = "S1" /\ from_pr r = true /\
    ~ in_change Examples.unit_changed (type r) (uuid r).
Proof.
  eexists. exists (mk_tree "symbol" (Some "R2") 3 3 1 "S1" "P1").
  split; [vm_compute; reflexivity|]. split; [simpl; tauto|].
  repeat split. exact unit_changed_not_symbol.
Qed.

(** A row of [where_used] other than a root's comes from a dependency. *)
Lemma where_used_row_source (db : database) (fuel : nat) wu (w : wu_row) :
  where_used db fuel = Some wu -> In w wu ->
  typex w = "part" \/
  exists d, In d (dependencies db) /\ dep_type d = typex w /\
            dep_uuid d = uuidx w.
Proof.
  intros H Hw. destruct (cte_union_spec _ _ _ _ _ H) as [_ Hiff].
  apply Hiff in Hw. apply where_used_row_iff in Hw. destruct Hw as [_ Hp].
  destruct (dep_path_target _ _ _ _ Hp) as [E|(d & Hd & E)].
  - left. now inversion E.
  - right. exists d. unfold dep_target in E. now inversion E.
Qed.

(** C5, as the code has it.  Whenever the display tree is computed (and it
    is when the dependencies have no cycle): the rows of type_order 5 are
    the model rows, one for each package row of [parts_tree] and model of
    that package, at the package's level plus one and with the package
    row's [in_pr]; the rows of type_order 3 are the symbol rows, one for
    each unit row and symbol of that unit, at the unit's level plus one and
    with the unit row's [in_pr]; any other row of type model_3d or symbol
    is a dependency's target and has type_order -1. *)
Theorem synthesized_rows (db : database) :
  (forall fuel rows,
      all_parts_tree db fuel = Some rows ->
      exists pt,
        parts_tree db fuel = Some pt /\
        (forall r, In r rows /\ type_order r = 5%Z <->
           exists p m, In p pt /\ type p = "package" /\ In m (models db) /\
                       package_uuid m = uuid p /\
                       r = mk_tree "model_3d" (Some (model_filename m))
                                   (level p + 1) 5 (in_pr p) "" (root p)) /\
        (forall r, In r rows /\ type_order r = 3%Z <->
           exists p s, In p pt /\ type p = "unit" /\ In s (symbols db) /\
                       symbol_unit s = uuid p /\
                       r = mk_tree "symbol" (Some (symbol_name s))
                                   (level p + 1) 3 (in_pr p) (symbol_uuid s)
                                   (root p)) /\
        (forall r, In r rows -> type r = "model_3d" \/ type r = "symbol" ->
           type_order r = 5%Z \/ type_order r = 3%Z \/
           (type_order r = (-1)%Z /\
            exists d, In d (dependencies db) /\ dep_type d = type r /\
                      dep_uuid d = uuid r)))
  /\
  (forall rank, ranked db rank ->
                exists fuel rows, all_parts_tree db fuel = Some rows).
Proof.
  split; [|apply all_parts_tree_computed].
  intros fuel rows H.
  destruct (all_parts_tree_Some _ _ _ H) as (wu & Hwu & Hpt & ->).
  exists (parts_tree_select db wu). split; [assumption|].
  assert (forall r, In r (parts_tree_select db wu) ->
                    type_order r <> 3%Z /\ type_order r <> 5%Z) as Hprim.
  { intros r Hr. destruct (parts_tree_select_In _ _ _ Hr) as (_ & Ho & _).
    rewrite Ho. apply type_order_of_values. }
  split; [|split].
  - intros r. rewrite all_parts_tree_select_In, <- model_rows_In. split.
    + intros [[Hr|[Hr|Hr]] Ho]; [|assumption|].
      * apply Hprim in Hr. tauto.
      * apply symbol_rows_In in Hr. destruct Hr as (p & s & _ & _ & _ & _ & ->).
        discriminate Ho.
    + intros Hr. split; [tauto|]. apply model_rows_In in Hr.
      now destruct Hr as (p & m & _ & _ & _ & _ & ->).
  - intros r. rewrite all_parts_tree_select_In, <- symbol_rows_In. split.
    + intros [[Hr|[Hr|Hr]] Ho]; [| |assumption].
      * apply Hprim in Hr. tauto.
      * apply model_rows_In in Hr. destruct Hr as (p & m & _ & _ & _ & _ & ->).
        discriminate Ho.
    + intros Hr. split; [tauto|]. apply symbol_rows_In in Hr.
      now destruct Hr as (p & s & _ & _ & _ & _ & ->).
  - intros r Hr Ht. apply all_parts_tree_select_In in Hr.
    destruct Hr as [Hr|[Hr|Hr]].
    + right. right. destruct (parts_tree_select_In _ _ _ Hr) as (Hw & Ho & _).
      split; [rewrite Ho; now apply type_order_of_unlisted|].
      destruct (where_used_row_source _ _ _ _ Hwu Hw) as [Hp|Hd].
      * simpl in Hp. destruct Ht as [Ht|Ht]; rewrite Ht in Hp; discriminate.
      * exact Hd.
    + left. apply model_rows_In in Hr.
      now destruct Hr as (p & m & _ & _ & _ & _ & ->).
    + right. left. apply symbol_rows_In in Hr.
      now destruct Hr as (p & s & _ & _ & _ & _ & ->).
Qed.

Lemma synthesized_rows_witness :
  exists p s,
    type p = "unit" /\ In s (symbols Examples.symbol_changed) /\
    symbol_unit s = uuid p /\
    mk_tree "symbol" (Some "R2") 3 3 0 "S1" "P1" =
    mk_tree "symbol" (Some (symbol_name s)) (level p + 1) 3 (in_pr p)
            (symbol_uuid s) (root p).
Proof.
  destruct (proj1 (synthesized_rows Examples.symbol_changed) 10 _ eq_refl)
    as (pt & _ & _ & Hsym & _).
  destruct (proj1 (Hsym (mk_tree "symbol" (Some "R2") 3 3 0 "S1" "P1")))
    as (p & s & _ & H).
  - split; [vm_compute; tauto|reflexivity].
  - now exists p, s.
Defined.

(** C5, as the spec has it, fails: whether the symbol itself is changed
    does not enter its row's flag.  With the symbol changed and its unit
    not, the row is plain; with the unit changed and the symbol not, the
    row is bold. *)
Lemma symbol_flag_ignores_symbol_change :
  (exists rows r,
      all_parts_tree Examples.symbol_changed 10 = Some rows /\ In r rows /\
      type r = "symbol" /\ uuid r = "S1" /\
      in_change Examples.symbol_changed "symbol" "S1" /\
      from_pr r = false)
  /\
  (exists rows r,
      all_parts_tree Examples.unit_changed 10 = Some rows /\ In r rows /\
      type r = "symbol" /\ uuid r = "S1" /\
      ~ in_change Examples.unit_changed "symbol" "S1" /\
      from_pr r = true).
Proof.
  split.
  - eexists. exists (mk_tree "symbol" (Some "R2") 3 3 0 "S1" "P1").
    split; [vm_compute; reflexivity|]. split; [simpl; tauto|].
    repeat split.
    exists (mk_gfv "symbol" "S1" "R2" "symbols/S1.json" 3).
    repeat split. vm_compute. tauto.
  - eexists. exists (mk_tree "symbol" (Some "R2") 3 3 1 "S1" "P1").
    split; [vm_compute; reflexivity|]. split; [simpl; tauto|].
    repeat split. exact unit_changed_not_symbol.
Qed.

(** The natural order of the spec's own examples. *)
Example strcmp_natural_examples :
  strcmp_natural "R2" "R10" = Lt /\ strcmp_natural "R10" "R100" = Lt /\
  strcmp_natural "A" "R2" = Lt.
Proof. repeat split. Qed.

End DisplayTree.

(** ** The derived parts [derived_parts_tree] *)

Section DerivedParts.
Import Sql PrReview.

Lemma derived_path_app (db : database) (a b c : string) (n m : nat) :
  derived_path db a n b -> derived_path db b m c ->
  derived_path db a (m + n) c.
Proof.
  intros Hab Hbc. induction Hbc as [|m p _ IH Hp]; simpl; [assumption|].
  now apply derived_next.
Qed.

Lemma derived_path_cycle (db : database) (u : string) (k : nat) :
  derived_path db u (S k) u ->
  forall m, exists n, m <= n /\ derived_path db u n u.
Proof.
  intros Hc. induction m as [|m (n & Hle & Hn)].
  - exists 0. split; [lia|constructor].
  - exists (S k + n). split; [lia|]. now apply derived_path_app with u.
Qed.

Lemma derived_recursive_In (db : database) (w w' : du_row) :
  In w' (derived_recursive db w) <->
  exists p, In p (parts db) /\ base p = d_uuidx w /\
            w' = mk_du (part_uuid p) (S (d_level w)).
Proof.
  unfold derived_recursive. rewrite in_map_iff. split.
  - intros (p & <- & Hp). apply filter_In in Hp. destruct Hp as [Hp Hc].
    apply holds_sql_eq in Hc. exists p. now rewrite Nat.add_1_r.
  - intros (p & Hp & Hb & ->). exists p. split; [now rewrite Nat.add_1_r|].
    apply filter_In. split; [assumption|]. now apply holds_sql_eq.
Qed.

Lemma derived_row_iff (db : database) (w : du_row) :
  cte_row (derived_recursive db) (derived_initial db) w <->
  exists r, In r (top_parts db) /\ derived_path db r (d_level w) (d_uuidx w).
Proof.
  split.
  - induction 1 as [w Hw|w w' _ (r & Hr & Hp) Hw'].
    + unfold derived_initial in Hw. apply in_map_iff in Hw.
      destruct Hw as (u & <- & Hu). exists u. split; [assumption|constructor].
    + apply derived_recursive_In in Hw'. destruct Hw' as (p & Hp' & Hb & ->).
      exists r. split; [assumption|]. simpl. apply derived_next; [|assumption].
      now rewrite Hb.
  - destruct w as [u l]. simpl. intros (r & Hr & Hp).
    induction Hp as [|n p Hp IH Hin].
    + apply cte_initial. unfold derived_initial. apply in_map_iff.
      now exists r.
    + apply (cte_recursive _ _ (mk_du (base p) n)); [exact IH|].
      apply derived_recursive_In. now exists p.
Qed.

Lemma derived_where_used_diverges (db : database) (r u : string) (n k : nat) :
  In r (top_parts db) -> derived_path db r n u -> derived_path db u (S k) u ->
  forall fuel, derived_where_used db fuel = None.
Proof.
  intros Hr Hru Hc.
  apply (cte_union_diverges du_row_eq_dec _ _ d_level).
  intros m. destruct (derived_path_cycle db u k Hc m) as (j & Hle & Hj).
  exists (mk_du u (j + n)). split; [|simpl; lia].
  apply derived_row_iff. exists r. split; [assumption|].
  now apply derived_path_app with u.
Qed.

Lemma derived_path_rank (db : database) (rank : string -> nat) a b n :
  base_ranked db rank -> derived_path db a n b -> n + rank b <= rank a.
Proof.
  intros Hrk. induction 1 as [|n p _ IH Hp]; [lia|].
  specialize (Hrk p Hp). lia.
Qed.

Lemma derived_where_used_computed (db : database) (rank : string -> nat) :
  base_ranked db rank ->
  exists fuel rows, derived_where_used db fuel = Some rows.
Proof.
  intros Hrk.
  set (N := list_max (map rank (top_parts db))).
  destruct (cte_union_terminates du_row_eq_dec (derived_recursive db)
              (derived_initial db) (derived_universe db N)) as [rows Hrows];
    [|now exists (S (List.length (derived_universe db N))), rows].
  intros w Hw. apply derived_row_iff in Hw. destruct Hw as (r & Hr & Hp).
  unfold derived_universe. apply in_flat_map. exists (d_uuidx w). split.
  - apply in_or_app. destruct Hp as [|n p _ Hp]; [now left|].
    right. now apply in_map.
  - apply in_map_iff. exists (d_level w). split; [now destruct w|].
    apply in_seq. pose proof (derived_path_rank _ _ _ _ _ Hrk Hp) as Hle.
    assert (rank r <= N).
    { assert (Forall (fun k => k <= N) (map rank (top_parts db))) as HF
          by (apply list_max_le; unfold N; lia).
      rewrite Forall_forall in HF. apply HF. now apply in_map. }
    lia.
Qed.

Lemma cyclic_base_root : In "PA" (top_parts Examples.cyclic_base).
Proof. vm_compute. tauto. Qed.

Lemma cyclic_base_cycle : derived_path Examples.cyclic_base "PA" 2 "PA".
Proof.
  apply (derived_next _ _ 1 (mk_part "PA" "PB" "A")); [|simpl; tauto].
  apply (derived_next _ _ 0 (mk_part "PB" "PA" "B")); [|simpl; tauto].
  constructor.
Qed.

Lemma derived_parts_tree_computed (db : database) (rank : string -> nat) :
  base_ranked db rank ->
  exists fuel rows, derived_parts_tree db fuel = Some rows.
Proof.
  intros Hrk.
  destruct (derived_where_used_computed db rank Hrk) as (fuel & rows & H).
  exists fuel. unfold derived_parts_tree. rewrite H. simpl. eauto.
Qed.

End DerivedParts.

(** ** Line segments on the recording canvas *)

Section RecordedLines.
Import CanvasCairo2.
Local Open Scope Q_scope.

Lemma draw_recording (calls : list line_call) (ca : canvas) :
  path (cr ca) = [] ->
  recording (cr (fold_left draw calls ca)) =
  (recording (cr ca) ++ map (stroke_of (cr ca)) calls)%list.
Proof.
  revert ca. induction calls as [|c calls IH]; intros ca Hp; simpl.
  - now rewrite app_nil_r.
  - rewrite IH; [|reflexivity].
    unfold draw, img_line, set_transform, stroke, set_line_width, line_to,
      move_to, stroke_of, placed, user_to_device. simpl. rewrite Hp. simpl.
    rewrite <- app_assoc. reflexivity.
Qed.



End RecordedLines.

(** ** Strings *)

Section StringFacts.
Import Report.
Local Open Scope string_scope.

Lemma append_nil_r (s : string) : s ++ "" = s.
Proof. induction s as [|c s IH]; simpl; [reflexivity|now rewrite IH]. Qed.

Lemma append_assoc (a b c : string) : (a ++ b) ++ c = a ++ (b ++ c).
Proof. induction a as [|x a IH]; simpl; [reflexivity|now rewrite IH]. Qed.

Lemma length_append (a b : string) :
  String.length (a ++ b) = String.length a + String.length b.
Proof. induction a as [|x a IH]; simpl; [reflexivity|now rewrite IH]. Qed.

Lemma append_inj_l (s a b : string) : s ++ a = s ++ b -> a = b.
Proof.
  induction s as [|c s IH]; simpl; intros H; [assumption|].
  inversion H. auto.
Qed.

Lemma append_inj_length (s1 s2 t1 t2 : string) :
  String.length s1 = String.length s2 -> s1 ++ t1 = s2 ++ t2 ->
  s1 = s2 /\ t1 = t2.
Proof.
  revert s2. induction s1 as [|c s1 IH]; intros [|d s2] Hl H;
    simpl in *; try discriminate.
  - now split.
  - inversion H; subst. destruct (IH s2) as [-> ->]; auto.
Qed.

Lemma append_inj_r (s1 s2 t : string) : s1 ++ t = s2 ++ t -> s1 = s2.
Proof.
  intros H. apply (append_inj_length s1 s2 t t); [|assumption].
  apply (f_equal String.length) in H. rewrite !length_append in H. lia.
Qed.

Lemma prefix_iff (a s : string) :
  String.prefix a s = true <-> exists post, s = a ++ post.
Proof.
  revert s. induction a as [|c a IH]; intros s; simpl.
  - destruct s; split; eauto.
  - destruct s as [|d s]; [split; [discriminate|intros (? & [=])]|].
    simpl. destruct (ascii_dec c d) as [->|Hn].
    + rewrite IH. split; intros (post & H); exists post.
      * now rewrite H.
      * now inversion H.
    + split; [discriminate|]. intros (post & H). inversion H. congruence.
Qed.

Lemma index_cons (a : string) (c : ascii) (s : string) :
  String.index 0 a (String c s) =
  if String.prefix a (String c s) then Some 0
  else match String.index 0 a s with
       | Some n => Some (S n)
       | None => None
       end.
Proof. reflexivity. Qed.

Lemma index_occurs (a s : string) :
  String.index 0 a s <> None <-> occurs a s.
Proof.
  unfold occurs. split.
  - induction s as [|c s IH].
    + simpl. destruct a; [|congruence]. intros _. now exists "", "".
    + rewrite index_cons. destruct (String.prefix a (String c s)) eqn:E.
      * intros _. apply prefix_iff in E. destruct E as (post & ->).
        now exists "", post.
      * destruct (String.index 0 a s); [|congruence]. intros _.
        destruct IH as (pre & post & ->); [congruence|].
        now exists (String c pre), post.
  - intros (pre & post & ->). induction pre as [|c pre IH].
    + change ("" ++ a ++ post) with (a ++ post).
      assert (String.prefix a (a ++ post) = true) as Hp
          by (apply prefix_iff; now exists post).
      destruct (a ++ post) eqn:E.
      * destruct a; [simpl; congruence|discriminate].
      * rewrite index_cons, Hp. congruence.
    + change (String c pre ++ a ++ post) with (String c (pre ++ a ++ post)).
      rewrite index_cons.
      destruct (String.prefix a (String c (pre ++ a ++ post)));
        [congruence|].
      destruct (String.index 0 a (pre ++ a ++ post)); congruence.
Qed.

End StringFacts.

(** ** The helpers of the report *)

Section Helpers.
Import Report.
Local Open Scope string_scope.

Lemma to_int_proper (z : Z) :
  Z.to_int z <> Decimal.Pos Decimal.Nil /\
  Z.to_int z <> Decimal.Neg Decimal.Nil.
Proof.
  destruct z as [|p|p]; simpl; split; try discriminate;
    intros [=H]; now apply DecimalPos.Unsigned.to_uint_nonnil in H.
Qed.

Lemma to_string_inj (a b : Z) : to_string a = to_string b -> a = b.
Proof.
  unfold to_string. intros H. apply DecimalZ.to_int_inj.
  destruct (to_int_proper a) as [Ha1 Ha2].
  destruct (to_int_proper b) as [Hb1 Hb2].
  pose proof (DecimalString.NilZero.isi _ Ha1 Ha2) as Ea.
  pose proof (DecimalString.NilZero.isi _ Hb1 Hb2) as Eb.
  rewrite H in Ea. congruence.
Qed.

Lemma delta_to_string_inj (a b : Z) :
  delta_to_string a = delta_to_string b -> a = b.
Proof.
  unfold delta_to_string, GIT_DELTA_ADDED, GIT_DELTA_MODIFIED.
  destruct (Z.eqb_spec a 1) as [->|Ha1]; destruct (Z.eqb_spec b 1) as [->|Hb1];
    try reflexivity;
    try (destruct (Z.eqb_spec b 3); discriminate);
    try (destruct (Z.eqb_spec a 3); discriminate).
  destruct (Z.eqb_spec a 3) as [->|Ha3]; destruct (Z.eqb_spec b 3) as [->|Hb3];
    try reflexivity; try discriminate.
  intros H. apply (append_inj_l "Unknown (") in H.
  apply append_inj_r in H. now apply to_string_inj.
Qed.

(** X1.  The state column of the items table tells any two statuses apart:
    [delta_to_string] gives different texts for different deltas, the
    unnamed ones included. *)
Theorem delta_to_string_distinct (a b : Z) :
  a <> b -> delta_to_string a <> delta_to_string b.
Proof. intros Hab H. apply Hab. now apply delta_to_string_inj. Qed.

Lemma delta_to_string_distinct_witness :
  delta_to_string 2 <> delta_to_string 12.
Proof. apply delta_to_string_distinct. discriminate. Defined.

Lemma back_last (c : ascii) (s : string) :
  exists rest, String c s = rest ++ String (back c s) "".
Proof.
  revert c. induction s as [|d s IH]; intros c; simpl.
  - now exists "".
  - destruct (IH d) as (rest & H). exists (String c rest). simpl.
    now rewrite <- H.
Qed.

Lemma last_back (c d : ascii) (s rest : string) :
  String c s = rest ++ String d "" -> back c s = d.
Proof.
  revert c s. induction rest as [|e rest IH]; intros c s H; simpl in H.
  - inversion H. reflexivity.
  - inversion H; subst. destruct rest as [|f rest]; simpl in *.
    + reflexivity.
    + now apply IH.
Qed.

(** X2.  [needs_trim] holds exactly of the strings whose first or last
    character is white space; never of the empty string. *)
Theorem needs_trim_iff (s : string) :
  needs_trim s = true <->
  exists c rest,
    isspace c = true /\ (s = String c rest \/ s = rest ++ String c "").
Proof.
  destruct s as [|c s]; simpl.
  - split; [discriminate|]. intros (d & rest & _ & [H|H]); [discriminate|].
    destruct rest; discriminate.
  - rewrite orb_true_iff. split.
    + intros [H|H].
      * exists c, s. auto.
      * destruct (back_last c s) as (rest & E). exists (back c s), rest. auto.
    + intros (d & rest & Hd & [H|H]).
      * inversion H; subst. now left.
      * right. now rewrite (last_back _ _ _ _ H).
Qed.

Lemma check_domains_None (domains : list string) (url : string) :
  check_domains domains url = None <->
  forall it, In it domains -> ~ occurs it url.
Proof.
  induction domains as [|d rest IH]; simpl.
  - split; [intros _ it []|reflexivity].
  - unfold find at 1. destruct (String.index 0 d url) eqn:E.
    + split; [discriminate|]. intros H. exfalso. apply (H d); [now left|].
      apply index_occurs. congruence.
    + rewrite IH. split.
      * intros H it [<-|Hin]; [|auto]. intros Ho.
        apply index_occurs in Ho. contradiction.
      * intros H it Hin. apply H. now right.
Qed.

Lemma check_domains_Some (domains : list string) (url it : string) :
  check_domains domains url = Some it ->
  exists before after,
    domains = (before ++ it :: after)%list /\ occurs it url /\
    forall e, In e before -> ~ occurs e url.
Proof.
  induction domains as [|d rest IH]; simpl; [discriminate|].
  unfold find at 1. destruct (String.index 0 d url) eqn:E.
  - intros [= <-]. exists [], rest. repeat split.
    + apply index_occurs. congruence.
    + intros e [].
  - intros H. destruct (IH H) as (before & after & -> & Ho & Hb).
    exists (d :: before), after. repeat split; [assumption|].
    intros e [<-|He]; [|auto]. intros Hd. apply index_occurs in Hd.
    contradiction.
Qed.

(** X3.  [check_datasheet] finds nothing exactly when none of the five
    forbidden domains occurs anywhere in the URL. *)
Theorem check_datasheet_None (url : string) :
  check_datasheet url = None <->
  forall it, In it forbidden_datasheet_domains -> ~ occurs it url.
Proof. unfold check_datasheet. apply check_domains_None. Qed.

(** X4.  What [check_datasheet] reports is a forbidden domain that occurs in the
    URL, and the first such in the order of the list. *)
Theorem check_datasheet_first (url it : string) :
  check_datasheet url = Some it ->
  exists before after,
    forbidden_datasheet_domains = (before ++ it :: after)%list /\
    occurs it url /\
    forall e, In e before -> ~ occurs e url.
Proof. unfold check_datasheet. apply check_domains_Some. Qed.

Lemma check_datasheet_first_witness :
  exists before after,
    forbidden_datasheet_domains = (before ++ "digikey.com" :: after)%list /\
    occurs "digikey.com" "https://www.digikey.com/p?ref=mouser.com" /\
    forall e, In e before ->
              ~ occurs e "https://www.digikey.com/p?ref=mouser.com".
Proof. apply check_datasheet_first. reflexivity. Defined.

End Helpers.

(** ** Alternate names, image names, unmapped pins *)

Section ReportParts.
Import Report.
Local Open Scope string_scope.

Lemma pop_back_snoc (s : string) (c : ascii) :
  pop_back (s ++ String c "") = Some s.
Proof.
  induction s as [|d s IH]; [reflexivity|].
  change (String d s ++ String c "") with (String d (s ++ String c "")).
  simpl. rewrite IH. destruct (s ++ String c "") eqn:E; [|reflexivity].
  destruct s; discriminate.
Qed.

Lemma append_alts_from (names : list string) (acc : string) :
  fold_left (fun alts it_alt : string => alts ++ (it_alt ++ ", ")) names acc
  = acc ++ append_alts names.
Proof.
  unfold append_alts. revert acc.
  induction names as [|n names IH]; intros acc; simpl.
  - now rewrite append_nil_r.
  - rewrite IH, (IH (n ++ ", ")). now rewrite append_assoc.
Qed.

Lemma append_alts_cons (n : string) (names : list string) :
  append_alts (n :: names) = n ++ ", " ++ append_alts names.
Proof.
  unfold append_alts at 1. simpl. rewrite append_alts_from.
  apply append_assoc.
Qed.

Lemma append_alts_concat (n : string) (names : list string) :
  append_alts (n :: names) = String.concat ", " (n :: names) ++ ", ".
Proof.
  revert n. induction names as [|m names IH]; intros n.
  - reflexivity.
  - rewrite append_alts_cons, IH.
    change (String.concat ", " (n :: m :: names))
      with (n ++ ", " ++ String.concat ", " (m :: names)).
    now rewrite !append_assoc.
Qed.

(** X5.  The alternate names of a pin are its names joined by ", ": the two
    [pop_back] calls always find the two characters they remove, also when
    the names are empty strings, and an empty list gives the empty cell. *)
Theorem alternate_names_concat (names : list string) :
  alternate_names names = Some (String.concat ", " names).
Proof.
  unfold alternate_names. destruct names as [|n names]; [reflexivity|].
  rewrite append_alts_concat.
  replace (String.length (String.concat ", " (n :: names) ++ ", ") =? 0)%nat
    with false by (symmetry; apply Nat.eqb_neq; rewrite length_append;
                   simpl; lia).
  simpl negb. cbv iota.
  change ", " with ("," ++ " "). rewrite <- append_assoc.
  rewrite pop_back_snoc. apply pop_back_snoc.
Qed.

(** X6.  No two images share a file name: for UUID texts of one length, the name
    of a placed symbol's image gives back the UUID, the mirror flag and the
    angle; the plain symbol name and the package name give back the UUID;
    and the three kinds of name never coincide. *)
Theorem image_names_distinct (u1 u2 : string) :
  String.length u1 = String.length u2 ->
  (forall m1 m2 a1 a2,
      placed_symbol_image u1 m1 a1 = placed_symbol_image u2 m2 a2 ->
      u1 = u2 /\ m1 = m2 /\ a1 = a2) /\
  (symbol_image u1 = symbol_image u2 -> u1 = u2) /\
  (package_image u1 = package_image u2 -> u1 = u2) /\
  (forall m a, symbol_image u1 <> placed_symbol_image u2 m a) /\
  (forall m a, package_image u1 <> placed_symbol_image u2 m a) /\
  package_image u1 <> symbol_image u2.
Proof.
  intros Hl. unfold placed_symbol_image, symbol_image, package_image.
  repeat split.
  - apply (append_inj_l "sym_") in H.
    now destruct (append_inj_length _ _ _ _ Hl H).
  - apply (append_inj_l "sym_") in H.
    destruct (append_inj_length _ _ _ _ Hl H) as [_ H'].
    apply (append_inj_l "_") in H'. destruct m1, m2; simpl in H';
      congruence.
  - apply (append_inj_l "sym_") in H.
    destruct (append_inj_length _ _ _ _ Hl H) as [_ H'].
    apply (append_inj_l "_") in H'.
    assert (to_string a1 ++ ".png" = to_string a2 ++ ".png") as H''
        by (destruct m1, m2; simpl in H'; congruence).
    apply append_inj_r in H''. now apply to_string_inj.
  - intros H. apply (append_inj_l "sym_") in H. now apply append_inj_r in H.
  - intros H. apply (append_inj_l "pkg_") in H. now apply append_inj_r in H.
  - intros m a H. apply (append_inj_l "sym_") in H.
    destruct (append_inj_length _ _ _ _ Hl H) as [_ H']. discriminate.
  - intros m a H. discriminate.
  - intros H. discriminate.
Qed.

Lemma image_names_distinct_witness :
  placed_symbol_image "5c3a" true 90 <> placed_symbol_image "5c3a" false 90.
Proof.
  intros H.
  destruct (proj1 (image_names_distinct "5c3a" "5c3a" eq_refl) _ _ _ _ H)
    as (_ & Hm & _).
  discriminate.
Defined.

Lemma emplace_In (x y : pin_ref) (set : list pin_ref) :
  In x (emplace y set) <-> x = y \/ In x set.
Proof.
  unfold emplace. destruct (in_dec pin_ref_eq_dec y set) as [Hin|Hn].
  - split; [now right|]. intros [->|H]; assumption.
  - rewrite in_app_iff. simpl. intuition congruence.
Qed.

Lemma emplace_NoDup (y : pin_ref) (set : list pin_ref) :
  NoDup set -> NoDup (emplace y set).
Proof.
  unfold emplace. intros H. destruct (in_dec pin_ref_eq_dec y set); auto.
  apply NoDup_app; [assumption|repeat constructor; intros []|].
  intros x Hx [<-|[]]. contradiction.
Qed.

Lemma collect_gate (g : string) (pins : list string) (set : list pin_ref) :
  let set' := fold_left (fun all_pins pin_uu => emplace (g, pin_uu) all_pins)
                        pins set in
  (NoDup set -> NoDup set') /\
  forall x, In x set' <-> In x set \/ exists p, In p pins /\ x = (g, p).
Proof.
  revert set. induction pins as [|p pins IH]; intros set; simpl.
  - split; [auto|]. intros x. split; [auto|]. intros [H|(p & [] & _)]. exact H.
  - destruct (IH (emplace (g, p) set)) as [Hnd Hin]. split.
    + intros H. apply Hnd. now apply emplace_NoDup.
    + intros x. rewrite Hin, emplace_In. split.
      * intros [[->|H]|(q & Hq & ->)]; eauto.
      * intros [H|(q & [<-|Hq] & ->)]; eauto.
Qed.

Lemma collect_pins_from (gates : list (string * list string)) set :
  let set' :=
    fold_left (fun all_pins gate =>
                 fold_left (fun all_pins pin_uu =>
                              emplace (fst gate, pin_uu) all_pins)
                           (snd gate) all_pins)
              gates set in
  (NoDup set -> NoDup set') /\
  forall x, In x set' <->
            In x set \/
            exists g pins p, In (g, pins) gates /\ In p pins /\ x = (g, p).
Proof.
  revert set. induction gates as [|[g pins] gates IH]; intros set; simpl.
  - split; [auto|]. intros x. split; [auto|].
    intros [H|(g & pins & p & [] & _)]. exact H.
  - destruct (collect_gate g pins set) as [Hnd1 Hin1].
    destruct (IH (fold_left (fun all_pins pin_uu =>
                               emplace (g, pin_uu) all_pins) pins set))
      as [Hnd Hin]. split; [auto|].
    intros x. rewrite Hin, Hin1. split.
    + intros [[H|(p & Hp & ->)]|(g' & pins' & p & Hg & Hp & ->)].
      * now left.
      * right. exists g, pins, p. auto.
      * right. exists g', pins', p. auto.
    + intros [H|(g' & pins' & p & [[= <- <-]|Hg] & Hp & ->)].
      * auto.
      * left. right. eauto.
      * right. exists g', pins', p. auto.
Qed.

Lemma erase_NoDup (y : pin_ref) (set : list pin_ref) :
  NoDup set -> NoDup (erase y set).
Proof.
  unfold erase. induction 1 as [|a l Ha Hl IHl]; simpl; [constructor|].
  destruct (pin_ref_eq_dec y a); [assumption|].
  constructor; [|assumption]. intros Hr. apply in_remove in Hr. tauto.
Qed.

Lemma erase_pads (pad_map : list (string * pin_ref)) (pads : list string)
  (set : list pin_ref) :
  let set' := fold_left (fun all_pins pad_uu =>
                           match pad_map_at pad_map pad_uu with
                           | Some it => erase it all_pins
                           | None => all_pins
                           end) pads set in
  (NoDup set -> NoDup set') /\
  forall x, In x set' <->
            In x set /\
            forall pad, In pad pads -> pad_map_at pad_map pad <> Some x.
Proof.
  revert set. induction pads as [|pad pads IH]; intros set; simpl.
  - split; [auto|]. intros x. split; [|tauto]. intros H. split; [exact H|].
    intros pad [].
  - destruct (pad_map_at pad_map pad) as [it|] eqn:E.
    + destruct (IH (erase it set)) as [Hnd Hin]. split.
      * intros H. apply Hnd. now apply erase_NoDup.
      * intros x. rewrite Hin. unfold erase. split.
        -- intros [Hx Hp]. apply in_remove in Hx. destruct Hx as [Hx Hne].
           split; [assumption|]. intros pad' [<-|Hpad]; [congruence|auto].
        -- intros [Hx Hp]. split.
           ++ apply in_in_remove; [|assumption]. intros ->.
              apply (Hp pad); [now left|assumption].
           ++ intros pad' Hpad. apply Hp. now right.
    + destruct (IH set) as [Hnd Hin]. split; [assumption|].
      intros x. rewrite Hin. split.
      * intros [Hx Hp]. split; [assumption|].
        intros pad' [<-|Hpad]; [congruence|auto].
      * intros [Hx Hp]. split; [assumption|]. intros pad' Hpad. apply Hp.
        now right.
Qed.

(** X7.  For a part without base, a gate's pin is reported as unmapped
    exactly when it is a pin of the
    part's entity and no pad of the package is mapped to it, whatever the
    order of the pads; a pad map entry for a pad the package does not have
    maps nothing.  No pin is reported twice. *)
Theorem unmapped_pins_iff (gates : list (string * list string))
  (pads : list string) (pad_map : list (string * pin_ref)) :
  NoDup (unmapped_pins gates pads pad_map) /\
  forall x,
    In x (unmapped_pins gates pads pad_map) <->
    (exists g pins p, In (g, pins) gates /\ In p pins /\ x = (g, p)) /\
    forall pad, In pad pads -> pad_map_at pad_map pad <> Some x.
Proof.
  unfold unmapped_pins, collect_pins.
  destruct (collect_pins_from gates []) as [Hnd1 Hin1].
  destruct (erase_pads pad_map pads
              (fold_left (fun all_pins gate =>
                 fold_left (fun all_pins pin_uu =>
                              emplace (fst gate, pin_uu) all_pins)
                           (snd gate) all_pins) gates [])) as [Hnd2 Hin2].
  split.
  - apply Hnd2, Hnd1. constructor.
  - intros x. rewrite Hin2, Hin1. simpl. tauto.
Qed.

End ReportParts.

(** ** The other queries of the report *)

Section MoreQueries.
Import Sql PrReview Report.

Lemma holds_false_iff (c : option bool) :
  holds c = false <-> ~ holds c = true.
Proof. destruct (holds c); split; congruence. Qed.

Lemma not_associated_rows_In (db : database) apt dpt (g : gfv_row) :
  In g (not_associated_rows db apt dpt) <->
  In g (git_files_view db) /\
  (forall a, In a apt -> ~ (uuid a = gfv_uuid g /\ type a = gfv_type g)) /\
  (gfv_type g = "part" -> forall d, In d dpt -> d_uuid d <> gfv_uuid g).
Proof.
  unfold not_associated_rows. rewrite in_flat_map. split.
  - intros (g' & Hg' & H). apply in_flat_map in H. destruct H as (a & Ha & H).
    apply in_flat_map in H. destruct H as (d & Hd & H).
    destruct (holds _) eqn:Hc in H; [|destruct H]. destruct H as [->|[]].
    apply holds_sql_and in Hc. destruct Hc as [Hna Hnd].
    apply holds_is_null in Hna, Hnd.
    destruct a; [discriminate|]. destruct d; [discriminate|].
    split; [assumption|]. split.
    + intros a Hin [Hu Ht].
      pose proof (proj1 (left_join_None _ _ _) Ha a Hin) as Hf.
      apply holds_false_iff in Hf. apply Hf. apply holds_sql_and.
      split; apply holds_sql_eq; congruence.
    + intros Ht d Hin Hu.
      pose proof (proj1 (left_join_None _ _ _) Hd d Hin) as Hf.
      apply holds_false_iff in Hf. apply Hf. apply holds_sql_and.
      split; apply holds_sql_eq; congruence.
  - intros (Hg & Ha & Hd). exists g. split; [assumption|].
    apply in_flat_map. exists None. split.
    + apply left_join_None. intros a Hin. apply holds_false_iff. intros Hc.
      apply holds_sql_and in Hc. destruct Hc as [Hu Ht].
      apply holds_sql_eq in Hu, Ht. apply (Ha a Hin). split; congruence.
    + apply in_flat_map. exists None. split; [|now left].
      apply left_join_None. intros d Hin. apply holds_false_iff. intros Hc.
      apply holds_sql_and in Hc. destruct Hc as [Hu Ht].
      apply holds_sql_eq in Hu, Ht. apply (Hd Ht d Hin). congruence.
Qed.

(** X8.  Over the rows of the two trees, "Items not associated with any
    part" lists the type and name of a changed record exactly when no row
    of the display tree has its uuid and type and, if it is a part, no row
    of the derived-parts tree has its uuid. *)
Theorem not_associated_iff (db : database) (apt : list tree_row)
  (dpt : list derived_row) (t n : string) :
  In (t, n) (not_associated_select db apt dpt) <->
  exists g,
    In g (git_files_view db) /\ gfv_type g = t /\ gfv_name g = n /\
    (forall a, In a apt -> ~ (uuid a = gfv_uuid g /\ type a = t)) /\
    (t = "part" -> forall d, In d dpt -> d_uuid d <> gfv_uuid g).
Proof.
  unfold not_associated_select. rewrite in_map_iff. split.
  - intros (g & [= <- <-] & Hg).
    apply not_associated_rows_In in Hg. exists g. tauto.
  - intros (g & Hg & <- & <- & Ha & Hd). exists g.
    split; [reflexivity|]. apply not_associated_rows_In. tauto.
Qed.

Lemma root_in_all_parts_tree (db : database) (fuel : nat) apt (u : string) :
  all_parts_tree db fuel = Some apt -> In u (top_parts db) ->
  exists a, In a apt /\ uuid a = u /\ type a = "part".
Proof.
  intros H Hu. destruct (all_parts_tree_Some _ _ _ H) as (wu & Hwu & _ & ->).
  destruct (cte_union_spec _ _ _ _ _ Hwu) as [_ Hiff].
  assert (In (mk_wu "part" u 0 u) wu) as Hw.
  { apply Hiff. apply cte_initial. unfold where_used_initial.
    apply in_map_iff. now exists u. }
  destruct (left_join_inhabited
              (fun w it => sql_and
                             (sql_eq (Some (typex w)) (Some (item_type it)))
                             (sql_eq (Some (uuidx w)) (Some (item_uuid it))))
              (mk_wu "part" u 0 u) (all_items_view db)) as (o & Ho).
  exists (mk_tree "part" (option_map item_name o) 0 (type_order_of "part")
                  (in_pr_count db "part" u) u u).
  split; [|split; reflexivity].
  apply all_parts_tree_select_In. left. unfold parts_tree_select.
  apply in_flat_map. exists (mk_wu "part" u 0 u). split; [assumption|].
  apply in_map_iff. now exists o.
Qed.

(** X9.  A root of the change is never listed under "Items not associated with
    any part". *)
Theorem root_is_associated (db : database) (fuel : nat) apt dpt (g : gfv_row) :
  all_parts_tree db fuel = Some apt ->
  In (gfv_uuid g) (top_parts db) -> gfv_type g = "part" ->
  ~ In g (not_associated_rows db apt dpt).
Proof.
  intros H Hu Ht Hin. apply not_associated_rows_In in Hin.
  destruct Hin as (_ & Ha & _).
  destruct (root_in_all_parts_tree _ _ _ _ H Hu) as (a & Hin & Hau & Hat).
  apply (Ha a Hin). split; congruence.
Qed.

Lemma root_is_associated_witness :
  exists apt,
    all_parts_tree Examples.unit_changed 10 = Some apt /\
    ~ In (mk_gfv "part" "P1" "R1" "parts/P1.json" 3)
         (not_associated_rows Examples.unit_changed apt []).
Proof.
  eexists. split; [vm_compute; reflexivity|].
  apply (root_is_associated Examples.unit_changed 10).
  - vm_compute. reflexivity.
  - vm_compute. tauto.
  - reflexivity.
Defined.



Lemma length_flat_map_pos {A B} (f : A -> list B) (l : list A) :
  List.length (flat_map f l) <> 0 <-> exists a b, In a l /\ In b (f a).
Proof.
  split.
  - destruct (flat_map f l) as [|b bs] eqn:E; [intros H; now elim H|].
    intros _. assert (In b (flat_map f l)) as Hb by (rewrite E; now left).
    apply in_flat_map in Hb. destruct Hb as (a & Ha & Hb). now exists a, b.
  - intros (a & b & Ha & Hb) Hz. apply length_zero_iff_nil in Hz.
    assert (In b (flat_map f l)) as Hin by (apply in_flat_map; eauto).
    rewrite Hz in Hin. destruct Hin.
Qed.

(** X11.  The sections "Derived parts" and "Parts table" are printed exactly when
    some changed part is itself derived (has a row in [parts] whose base is
    not the nil uuid): a change of a base part alone does not print them,
    whatever parts derive from it. *)
Theorem n_derived_iff (db : database) :
  n_derived db <> 0 <->
  exists g p,
    In g (git_files_view db) /\ gfv_type g = "part" /\
    In p (parts db) /\ part_uuid p = gfv_uuid g /\ base p <> nil_uuid.
Proof.
  unfold n_derived. rewrite length_flat_map_pos. split.
  - intros (g & g' & Hg & H). apply in_flat_map in H.
    destruct H as (p & Hp & H). destruct p as [p|]; [|destruct H].
    apply left_join_Some in Hp. destruct Hp as [Hp Hc].
    apply holds_sql_and in Hc. destruct Hc as [Hu Ht].
    apply holds_sql_eq in Hu, Ht. exists g, p. repeat split; auto.
    intros Hb. simpl in H. rewrite Hb, String.eqb_refl in H. destruct H.
  - intros (g & p & Hg & Ht & Hp & Hu & Hb). exists g, g.
    split; [assumption|]. apply in_flat_map. exists (Some p). split.
    + apply left_join_Some. split; [assumption|]. apply holds_sql_and.
      split; now apply holds_sql_eq.
    + simpl. apply String.eqb_neq in Hb. rewrite Hb. now left.
Qed.

(** A changed base part with an unchanged derived part: the derived-parts
    tree has the derived part at level 1, and [n_derived] is 0. *)
Example base_changed_n_derived :
  n_derived ReportExamples.base_changed = 0 /\
  option_map (map (fun r => (d_uuid r, dp_level r)))
             (derived_parts_tree ReportExamples.base_changed 10)
  = Some [("P1", 0); ("P2", 1)].
Proof. split; reflexivity. Qed.

(** X12.  When the derived-parts tree is computed, it holds a row for (uuid,
    level) exactly when the part is derived in level steps from a root, the
    roots themselves at level 0; the row is set in bold exactly when the
    part is changed; and its MPN is that of the part's row in [parts], NULL
    exactly when there is no such row. *)
Theorem derived_parts_tree_rows (db : database) (fuel : nat)
  (rows : list derived_row) :
  derived_parts_tree db fuel = Some rows ->
  (forall u l,
      (exists row, In row rows /\ d_uuid row = u /\ dp_level row = l) <->
      (exists r, In r (top_parts db) /\ derived_path db r l u)) /\
  (forall row, In row rows ->
      (d_in_pr row <> 0 <-> in_change db "part" (d_uuid row)) /\
      (d_MPN row = None <->
       forall p, In p (parts db) -> part_uuid p <> d_uuid row) /\
      (forall m, d_MPN row = Some m ->
                 exists p, In p (parts db) /\ part_uuid p = d_uuid row /\
                           MPN p = m)).
Proof.
  unfold derived_parts_tree.
  destruct (derived_where_used db fuel) as [wu|] eqn:Hwu; [|discriminate].
  intros [= <-]. destruct (cte_union_spec _ _ _ _ _ Hwu) as [_ Hiff].
  split.
  - intros u l. split.
    + intros (row & Hrow & <- & <-). apply in_flat_map in Hrow.
      destruct Hrow as (w & Hw & Hrow). apply in_map_iff in Hrow.
      destruct Hrow as (o & <- & _). simpl.
      apply Hiff in Hw. now apply derived_row_iff in Hw.
    + intros Hr.
      assert (In (mk_du u l) wu) as Hw
          by (apply Hiff; now apply derived_row_iff).
      destruct (left_join_inhabited
                  (fun w p => sql_eq (Some (d_uuidx w)) (Some (part_uuid p)))
                  (mk_du u l) (parts db)) as (o & Ho).
      exists (mk_derived (option_map MPN o) l (in_pr_count db "part" u) u).
      split; [|split; reflexivity]. apply in_flat_map. exists (mk_du u l).
      split; [assumption|]. apply in_map_iff. now exists o.
  - intros row Hrow. apply in_flat_map in Hrow.
    destruct Hrow as (w & Hw & Hrow). apply in_map_iff in Hrow.
    destruct Hrow as (o & <- & Ho). simpl. split; [|split].
    + apply in_pr_count_in_change.
    + destruct o as [p|]; simpl.
      * split; [discriminate|]. intros H. exfalso.
        apply left_join_Some in Ho. destruct Ho as [Hp Hc].
        apply holds_sql_eq in Hc. apply (H p Hp). congruence.
      * split; [|reflexivity]. intros _ p Hp. apply not_eq_sym.
        apply holds_sql_eq_false.
        exact (proj1 (left_join_None _ _ _) Ho p Hp).
    + intros m Hm. destruct o as [p|]; [|discriminate]. simpl in Hm.
      apply left_join_Some in Ho. destruct Ho as [Hp Hc].
      apply holds_sql_eq in Hc. exists p. repeat split; congruence.
Qed.

Lemma derived_parts_tree_rows_witness :
  (exists row,
      In row [mk_derived (Some "R1") 0 1 "P1"; mk_derived (Some "R2") 1 0 "P2"]
      /\ d_uuid row = "P2" /\ dp_level row = 1) <->
  (exists r, In r (top_parts ReportExamples.base_changed) /\
             derived_path ReportExamples.base_changed r 1 "P2").
Proof.
  apply (derived_parts_tree_rows ReportExamples.base_changed 10).
  reflexivity.
Defined.

End MoreQueries.

(** ** The shape of the closure *)

Section ClosureShape.
Import Sql PrReview.




Lemma dep_path_S_inv (db : database) (a b : ref) (l : nat) :
  dep_path db a (S l) b ->
  exists d, In d (dependencies db) /\ dep_target d = b /\
            dep_path db a l (dep_source d).
Proof. inversion 1; subst; eauto. Qed.

(** X13.  When [where_used] is computed, its rows at level 0 are the roots, each
    as a part under itself, and every row at a deeper level has a parent
    row one level up under the same root that depends on it: the indented
    overview is a forest hanging from the roots. *)
Theorem where_used_forest (db : database) (fuel : nat) (rows : list wu_row) :
  where_used db fuel = Some rows ->
  (forall t u r,
      In (mk_wu t u 0 r) rows <->
      t = "part" /\ u = r /\ In r (top_parts db)) /\
  (forall t u l r,
      In (mk_wu t u (S l) r) rows ->
      exists d,
        In d (dependencies db) /\ dep_type d = t /\ dep_uuid d = u /\
        In (mk_wu (dep_of_type d) (dep_of_uuid d) l r) rows).
Proof.
  intros H. destruct (cte_union_spec _ _ _ _ _ H) as [_ Hiff]. split.
  - intros t u r. rewrite Hiff, where_used_row_iff. simpl. split.
    + intros [Hr Hp]. inversion Hp; subst. auto.
    + intros (-> & -> & Hr). split; [assumption|constructor].
  - intros t u l r Hin. apply Hiff in Hin. apply where_used_row_iff in Hin.
    simpl in Hin. destruct Hin as [Hr Hp].
    apply dep_path_S_inv in Hp. destruct Hp as (d & Hd & Ht & Hp).
    exists d. unfold dep_target in Ht. inversion Ht; subst.
    repeat split; try assumption.
    apply Hiff. apply where_used_row_iff. simpl. split; assumption.
Qed.

Lemma where_used_forest_witness :
  exists d,
    In d (dependencies Examples.derived_changed) /\
    dep_type d = "entity" /\ dep_uuid d = "E1" /\
    In (mk_wu (dep_of_type d) (dep_of_uuid d) 1 "P2")
       [mk_wu "part" "P2" 0 "P2"; mk_wu "entity" "E1" 1 "P2";
        mk_wu "part" "P1" 1 "P2"; mk_wu "entity" "E1" 2 "P2"].
Proof.
  apply (proj2 (where_used_forest Examples.derived_changed 10 _ eq_refl)).
  simpl. tauto.
Defined.

End ClosureShape.

(** ** The recording as a whole *)

Section Recording.
Import CanvasCairo2 Report.

Lemma stroke_of_endpoints (cr0 : Context) (calls : list line_call) :
  map (stroke_of cr0) calls =
  map (fun e : Coordi * Coordi =>
         mk_stroke [[user_to_device cr0 (inject_Z (x (fst e)))
                                    (inject_Z (y (fst e)));
                     user_to_device cr0 (inject_Z (x (snd e)))
                                    (inject_Z (y (snd e)))]]
                   (inject_Z 100000) (line_cap cr0) (source_rgb cr0))
      (map endpoints calls).
Proof.
  induction calls as [|c calls IH]; simpl; [reflexivity|].
  now rewrite IH.
Qed.

(** X14.  What is recorded depends on the calls only through their end points as
    placed: the width and the layer of a call never matter, nor does the
    placement of a call made with [tr] false. *)
Theorem recording_depends_on_endpoints (calls1 calls2 : list line_call) :
  map endpoints calls1 = map endpoints calls2 ->
  recording (cr (draw_all calls1)) = recording (cr (draw_all calls2)).
Proof.
  intros H. unfold draw_all. rewrite !draw_recording by reflexivity.
  now rewrite !stroke_of_endpoints, H.
Qed.

Lemma recording_depends_on_endpoints_witness :
  recording (cr (draw_all
    [mk_line_call (fun p => mk_coordi (y p) (x p)) (mk_coordi 0 0)
                  (mk_coordi 10 10) 250000 0 false]))
  = recording (cr (draw_all
    [mk_line_call (fun p => p) (mk_coordi 0 0) (mk_coordi 10 10) 0 7 true])).
Proof. apply recording_depends_on_endpoints. reflexivity. Defined.

(** X15.  Recording is append-only and each call stands alone: drawing one list
    of calls after another on a fresh canvas records the strokes of the
    first followed by the strokes the second records on a canvas of its
    own. *)
Theorem recording_app (calls1 calls2 : list line_call) :
  recording (cr (draw_all (calls1 ++ calls2))) =
  recording (cr (draw_all calls1)) ++ recording (cr (draw_all calls2)).
Proof.
  unfold draw_all. rewrite !draw_recording by reflexivity.
  simpl. apply map_app.
Qed.

Lemma draw_keeps_pen (ca : canvas) (c : line_call) :
  path (cr (draw ca c)) = [] /\
  matrix (cr (draw ca c)) = matrix (cr ca) /\
  line_cap (cr (draw ca c)) = line_cap (cr ca) /\
  source_rgb (cr (draw ca c)) = source_rgb (cr ca) /\
  line_width (cr (draw ca c)) = inject_Z 100000 /\
  img_mode (draw ca c) = img_mode ca.
Proof. repeat split. Qed.

(** X16.  Whatever is drawn, [img_line] leaves no path behind for the next call
    and keeps the pen the constructor set: the scale with the Y flip, the
    round cap and the black source; the canvas stays in image mode. *)
Theorem canvas_keeps_pen (calls : list line_call) :
  let ca := draw_all calls in
  path (cr ca) = [] /\
  matrix (cr ca) = matrix (cr (CanvasCairo2 (fun p => p))) /\
  line_cap (cr ca) = LINE_CAP_ROUND /\
  source_rgb (cr ca) = (0, 0, 0)%Q /\
  img_mode ca = true.
Proof.
  unfold draw_all.
  assert (forall ca0,
             path (cr ca0) = [] ->
             path (cr (fold_left draw calls ca0)) = [] /\
             matrix (cr (fold_left draw calls ca0)) = matrix (cr ca0) /\
             line_cap (cr (fold_left draw calls ca0)) = line_cap (cr ca0) /\
             source_rgb (cr (fold_left draw calls ca0)) = source_rgb (cr ca0)
             /\ img_mode (fold_left draw calls ca0) = img_mode ca0) as Hinv.
  { induction calls as [|c calls IH]; intros ca0 Hp; simpl; [tauto|].
    destruct (draw_keeps_pen ca0 c) as (H1 & H2 & H3 & H4 & _ & H6).
    destruct (IH (draw ca0 c) H1) as (I1 & I2 & I3 & I4 & I5).
    repeat split; congruence. }
  apply (Hinv (CanvasCairo2 (fun p => p))). reflexivity.
Qed.

End Recording.

(** ** [surround_if] *)

Section SurroundIf.
Import Report.
Local Open Scope string_scope.

(** X17.  [surround_if] leaves the text as it is exactly when the text is empty,
    the condition is false, or there is nothing to put around it: an empty
    name is never set in bold or italics. *)
Theorem surround_if_unchanged (prefix suffix s : string) (cond : bool) :
  surround_if prefix suffix s cond = s <->
  s = "" \/ cond = false \/ (prefix = "" /\ suffix = "").
Proof.
  unfold surround_if. destruct s as [|c s]; [simpl; tauto|].
  destruct cond; simpl; [|tauto]. split.
  - intros H. right. right.
    assert (String.length prefix + (S (String.length s)
                                    + String.length suffix)
            = S (String.length s)) as Hl.
    { apply (f_equal String.length) in H.
      rewrite !length_append in H. simpl in H. rewrite length_append in H.
      lia. }
    destruct prefix, suffix; simpl in Hl; try lia. auto.
  - intros [H|[H|[-> ->]]]; try discriminate. simpl.
    now rewrite append_nil_r.
Qed.

End SurroundIf.

(** ** What a recursive table emits on the way *)

Section EmitFacts.
Import Sql Emission.
Context {row : Type}.
Variable row_eq_dec : forall x y : row, {x = y} + {x <> y}.
Variable recursive_select : row -> list row.

Local Abbreviation emit := (cte_emit row_eq_dec recursive_select).

(** What [cte_loop] returns is what it has emitted. *)
Lemma cte_loop_emit (fuel : nat) (queue seen out : list row) :
  cte_loop row_eq_dec recursive_select fuel queue seen = Some out ->
  emit fuel queue seen = out.
Proof.
  revert queue seen out. induction fuel as [|fuel IH]; intros queue seen out;
    [discriminate|]. simpl. destruct queue as [|r q]; [congruence|].
  destruct (enqueue row_eq_dec seen (recursive_select r)) as [s f].
  destruct (cte_loop _ _ fuel (q ++ f) s) as [o|] eqn:E; [|discriminate].
  intros [= <-]. now rewrite (IH _ _ _ E).
Qed.

(** The queue is served in order: a queued row is emitted. *)
Lemma queued_is_emitted (q1 : list row) :
  forall r q2 seen, exists fuel, In r (emit fuel (q1 ++ r :: q2) seen).
Proof.
  induction q1 as [|a q1 IH]; intros r q2 seen.
  - exists 1. simpl.
    destruct (enqueue row_eq_dec seen (recursive_select r)). now left.
  - destruct (enqueue row_eq_dec seen (recursive_select a)) as [s f] eqn:E.
    destruct (IH r (q2 ++ f) s) as (fuel & H). exists (S fuel). simpl.
    rewrite E. right. now rewrite <- app_assoc.
Qed.

Lemma in_queue_emitted (r : row) (queue seen : list row) :
  In r queue -> exists fuel, In r (emit fuel queue seen).
Proof.
  intros H. apply in_split in H. destruct H as (q1 & q2 & ->).
  apply queued_is_emitted.
Qed.

(** What an emitted row yields is emitted too, unless it was seen and had
    left the queue before. *)
Lemma yield_is_emitted (fuel : nat) :
  forall queue seen y x,
    In y (emit fuel queue seen) -> In x (recursive_select y) ->
    (In x seen /\ ~ In x queue) \/ exists fuel', In x (emit fuel' queue seen).
Proof.
  induction fuel as [|fuel IH]; intros queue seen y x Hy Hx; [destruct Hy|].
  simpl in Hy. destruct queue as [|a q]; [destruct Hy|].
  destruct (enqueue row_eq_dec seen (recursive_select a)) as [s f] eqn:E.
  destruct (enqueue_spec _ _ _ _ _ E) as (E1 & E2 & _).
  assert (forall z, In z (q ++ f) ->
                    exists fuel', In z (emit fuel' (a :: q) seen)) as Hlater.
  { intros z Hz. destruct (in_queue_emitted z (q ++ f) s Hz) as (k & Hk).
    exists (S k). simpl. rewrite E. now right. }
  assert (In x s ->
          (In x seen /\ ~ In x (a :: q)) \/
          exists fuel', In x (emit fuel' (a :: q) seen)) as Hseen.
  { intros Hs. destruct (in_dec row_eq_dec x (a :: q)) as [Hq|Hq].
    - right. now apply in_queue_emitted.
    - destruct (in_dec row_eq_dec x seen) as [?|Hn]; [now left|].
      right. apply Hlater. apply in_app_iff. right. apply E2.
      apply E1 in Hs. tauto. }
  destruct Hy as [<-|Hy].
  - apply Hseen. apply E1. now right.
  - destruct (IH _ _ _ _ Hy Hx) as [[Hs _]|(k & Hk)]; [now apply Hseen|].
    right. exists (S k). simpl. rewrite E. now right.
Qed.

(** Every row of the table is emitted after some number of steps. *)
Theorem cte_row_emitted (initial_select : list row) (r : row) :
  cte_row recursive_select initial_select r ->
  exists fuel,
    In r (cte_emitted row_eq_dec recursive_select initial_select fuel).
Proof.
  unfold cte_emitted.
  destruct (enqueue row_eq_dec [] initial_select) as [s f] eqn:E.
  destruct (enqueue_spec _ _ _ _ _ E) as (E1 & E2 & _).
  induction 1 as [r Hr|y x _ (k & Hk) Hx].
  - apply in_queue_emitted. apply E2. simpl. tauto.
  - destruct (yield_is_emitted _ _ _ _ _ Hk Hx) as [[Hs Hq]|H]; [|exact H].
    exfalso. apply Hq. apply E2. apply E1 in Hs. simpl in *. tauto.
Qed.

End EmitFacts.

(** ** A cycle of base links *)

Section BaseCycle.
Import Sql PrReview Emission.

Lemma derived_path_around (db : database) (u : string) (k m : nat) :
  derived_path db u (S k) u -> derived_path db u (m * S k) u.
Proof.
  intros Hc. induction m as [|m IH]; [constructor|].
  change (S m * S k) with (S k + m * S k).
  now apply derived_path_app with u.
Qed.

(** C6, as the code has it.  The derived-parts tree has no cycle detection
    and no error.  When a cycle of base links through a part can be reached
    from a root, the recursive table emits that part again after every
    turn of the cycle, one cycle length deeper each time, at every level
    that a 64-bit integer holds exactly; when the base links have no cycle
    the tree is computed. *)
Theorem derived_cycle_emitted_again (db : database) :
  (forall r u n k m,
      In r (top_parts db) -> derived_path db r n u ->
      derived_path db u (S k) u ->
      exact_level (m * S k + n) ->
      exists fuel, In (mk_du u (m * S k + n)) (derived_emitted db fuel))
  /\
  (forall rank, base_ranked db rank ->
                exists fuel rows, derived_parts_tree db fuel = Some rows).
Proof.
  split; [|apply derived_parts_tree_computed].
  intros r u n k m Hr Hru Hc _. unfold derived_emitted.
  apply cte_row_emitted. apply derived_row_iff. exists r.
  split; [assumption|]. simpl.
  apply derived_path_app with u; [assumption|].
  now apply derived_path_around.
Qed.

Lemma derived_cycle_emitted_again_witness :
  exists fuel, In (mk_du "PA" 4) (derived_emitted Examples.cyclic_base fuel).
Proof.
  apply (proj1 (derived_cycle_emitted_again Examples.cyclic_base)
               "PA" "PA" 0 1 2).
  - exact cyclic_base_root.
  - constructor.
  - exact cyclic_base_cycle.
  - reflexivity.
Defined.

(** C6, as the spec has it, fails: with [PA] and [PB] each the other's base
    and [PA] changed, [PA] is a root, and after three steps the table holds
    [PA] at level 0 and again at level 2; nothing reports the cycle. *)
Lemma cyclic_base_part_emitted_twice :
  In "PA" (top_parts Examples.cyclic_base) /\
  derived_emitted Examples.cyclic_base 3 =
  [mk_du "PA" 0; mk_du "PB" 1; mk_du "PA" 2].
Proof. split; [exact cyclic_base_root|reflexivity]. Qed.

End BaseCycle.
